(** * node-simperium: the wire-frame splitter, the JSON diff algebra and the
    Bucket facade

    Definitions:
    - [JSString], [ParseMessage]: [src/simperium/util/parse_message.js] with
      the string primitives it uses ([indexOf], [slice]).
    - [JSONDiff]: the operation algebra declared in
      [src/simperium/jsondiff/jsondiff.js.flow], and [object_diff] and
      [apply_object_diff] of the class [JSONDiff] it declares.
    - [JS], [Bucket]: [src/simperium/bucket.js] over the history of the calls
      a bucket makes on its store, its channel, its listeners and callbacks.
    - [Mock]: [test/simperium/mock-channel.js] and an in-memory store.
    - [BucketContracts]: what is asked of the bucket's operations.
    - [BucketHandlers]: the listeners the constructor of a bucket makes.
    - [Wiring]: [setChannel] over the listener lists of event emitters.
    - [Sample]: the interrupt handler of [sample/simplenote.js].

    Facts: [JSStringFacts], [ParseMessageFacts], [JSONDiffFacts], [JSFacts],
    [BucketFacts], [ParseMessageMore], [BucketMore], [WiringFacts],
    [SampleFacts]. *)

From Stdlib Require Import ZArith Ascii String SpecFloat.
From stdpp Require Import gmap strings list fin_maps.

Set Warnings "-register-all".

Local Open Scope Z_scope.

(* ===================================================================== *)
(** ** JavaScript string primitives used by the sources *)
(* ===================================================================== *)

Module JSString.

(** [s.length] *)
Definition len (s : string) : Z := Z.of_nat (String.length s).

(** [s.indexOf(c)] for a one-character needle: the index of the first
    occurrence, [-1] when there is none. *)
Fixpoint indexOf (c : ascii) (s : string) : Z :=
  match s with
  | EmptyString => -1
  | String a s' =>
      if Ascii.eqb a c then 0
      else let i := indexOf c s' in
           if i <? 0 then -1 else i + 1
  end.

(** Relative index of [String.prototype.slice]: a negative argument counts
    from the end, and the result is clamped to [0 .. length]. *)
Definition clamp (l i : Z) : Z :=
  if i <? 0 then Z.max (l + i) 0 else Z.min i l.

(** [s.slice(start, end)]; [end_] is [None] when the argument is left out. *)
Definition slice (s : string) (start : Z) (end_ : option Z) : string :=
  let l := len s in
  let from := clamp l start in
  let to := match end_ with None => l | Some e => clamp l e end in
  let span := Z.max (to - from) 0 in
  String.substring (Z.to_nat from) (Z.to_nat span) s.

(** Does the character occur in the string? *)
Fixpoint occurs (c : ascii) (s : string) : bool :=
  match s with
  | EmptyString => false
  | String a s' => Ascii.eqb a c || occurs c s'
  end.

End JSString.

(* ===================================================================== *)
(** ** src/simperium/util/parse_message.js *)
(* ===================================================================== *)

Module ParseMessage.
Import JSString.

Record message := { command : string; data : string }.

(** [export default ( data ) => { const marker = data.indexOf( ':' ); ... }] *)
Definition parse_message (data : string) : message :=
  let marker := indexOf ":"%char data in
  {| command := slice data 0 (Some marker);
     data := slice data (marker + 1) None |}.

End ParseMessage.

(* ===================================================================== *)
(** ** src/simperium/jsondiff/jsondiff.js.flow: the operation algebra *)
(* ===================================================================== *)

Module JSONDiff.

(** [number] of the declaration: an IEEE 754 double. The standard library
    specifies the format bit by bit ([spec_float], here with 53 bits of
    precision and exponents below 1024); [+] and [-] round to the nearest
    double, ties to even. A JSON text holds finite numbers only. *)
Definition number := spec_float.

#[global] Instance number_eq_dec : EqDecision number.
Proof. solve_decision. Defined.

(** [x + y] and [x - y] *)
Definition number_add : number -> number -> number := SFadd 53 1024.
Definition number_sub : number -> number -> number := SFsub 53 1024.

(** The double nearest to an integer. *)
Definition number_of_Z (z : Z) : number := binary_normalize 53 1024 z 0 false.

(** A JSON value: null, a boolean, a number, a string, an ordered list of
    values, or a mapping from strings to values. *)
Inductive Value :=
| VNull
| VBool (b : bool)
| VNum (n : number)
| VStr (s : string)
| VList (items : list Value)
| VObj (fields : gmap string Value).

#[global] Instance Value_eq_dec : EqDecision Value.
Proof.
  refine (fix go (x y : Value) {struct x} : Decision (x = y) :=
    let _ : EqDecision Value := @go in
    match x, y with
    | VNull, VNull => left _
    | VBool a, VBool b => cast_if (decide (a = b))
    | VNum a, VNum b => cast_if (decide (a = b))
    | VStr a, VStr b => cast_if (decide (a = b))
    | VList a, VList b => cast_if (decide (a = b))
    | VObj a, VObj b => cast_if (decide (a = b))
    | _, _ => right _
    end); abstract congruence.
Defined.

(** The number of nodes of a value: what the recursions on values go
    down on. *)
Fixpoint Value_size (v : Value) : nat :=
  match v with
  | VList items => S (foldr (fun x n => Value_size x + n)%nat 0%nat items)
  | VObj fields => S (map_fold (fun _ x n => Value_size x + n)%nat 0%nat fields)
  | _ => 1%nat
  end.

(** [export type Options = { list_diff: boolean }] *)
Record Options := { list_diff : bool }.

(** [export type Operation]: the seven operations of the declaration, by
    their tag [o] and payload [v]. Flow rules out any other tag; an operation
    set that comes off the wire may still carry one, which
    [UnknownOperation] stands for. *)
Inductive Operation :=
| AddOperation (v : Value)                        (* { o: '+', v: any } *)
| RemoveOperation                                 (* { o: '-' } *)
| ReplaceOperation (v : Value)                    (* { o: 'r', v: any } *)
| IncrementOperation (v : number)                 (* { o: 'I', v: number } *)
| ListOperation (v : gmap nat Operation)          (* { o: 'L', v: { [index: number]: Operation } } *)
| ObjectOperation (v : gmap string Operation)     (* { o: 'O', v: ObjectOperationSet } *)
| DiffMatchPatchOperation (v : string)            (* { o: 'd', v: string } *)
| UnknownOperation (o : string).

Fixpoint Operation_size (op : Operation) : nat :=
  match op with
  | ListOperation ops =>
      S (map_fold (fun _ x n => Operation_size x + n)%nat 0%nat ops)
  | ObjectOperation ops =>
      S (map_fold (fun _ x n => Operation_size x + n)%nat 0%nat ops)
  | _ => 1%nat
  end.

(** The two ways [apply_object_diff] fails. *)
Inductive Error :=
| MalformedOperation
| OperationPreconditionViolated.

Inductive result (A : Type) :=
| Ok (a : A)
| Err (e : Error).
Arguments Ok {A} a.
Arguments Err {A} e.

(** What the diff algebra takes from outside. The [diff_match_patch]
    library is not part of the repository: [dmp_diff a b] is the patch text
    that leads from [a] to [b], [dmp_apply patch s] the patched string, if
    the patch applies. *)
Record Components := {
  dmp_diff : string -> string -> string;
  dmp_apply : string -> string -> option string
}.

(** Modelled from the spec: the check behind [MalformedOperation], part of
    [apply_object_diff], which is not among the sources. An operation, or an
    operation nested in it, carries a tag that is none of the seven. *)
Fixpoint has_unknown_tag (op : Operation) : bool :=
  match op with
  | UnknownOperation _ => true
  | ListOperation ops =>
      map_fold (fun _ child found => has_unknown_tag child || found) false ops
  | ObjectOperation ops =>
      map_fold (fun _ child found => has_unknown_tag child || found) false ops
  | _ => false
  end.

Definition malformed (ops : gmap string Operation) : bool :=
  has_unknown_tag (ObjectOperation ops).

(** Modelled from the spec: the loop of [apply_object_diff], which is not
    among the sources, over the keys. The operation of a key (if any) is
    tried on the value the base has there (if any); untouched keys keep
    their value. [None] as soon as one operation does not apply. *)
Definition patch_with
    (step : Operation -> option Value -> option (option Value))
    (ops : gmap string Operation) (base : gmap string Value)
  : option (gmap string Value) :=
  let outcomes : gmap string (option (option Value)) :=
    merge (fun op target =>
             match op with
             | Some op => Some (step op target)
             | None => Some (Some target)
             end) ops base in
  if decide (map_Forall (fun _ outcome => is_Some outcome) outcomes)
  then Some (omap (fun outcome : option (option Value) => mjoin outcome) outcomes)
  else None.

(** One past the highest index an operation set of a list names. *)
Definition index_bound (ops : gmap nat Operation) : nat :=
  map_fold (fun i _ top => max (S i) top) 0%nat ops.

(** Modelled from the spec: one step of the application of a [LIST]
    operation, which is not among the sources. The outcome of the operation
    of index [i] is put into the list patched so far. Indices are those of
    the base list, and the operations of higher indices have been applied:
    an index of the base list still holds the base value, which is replaced
    by the outcome or deleted; an index past the end of the base list holds
    nothing, and a value added there goes behind the values of the base
    list, in front of those added at higher indices. *)
Definition splice (base current : list Value) (i : nat) (outcome : option Value)
  : list Value :=
  match base !! i with
  | Some _ => take i current ++ option_list outcome ++ drop (S i) current
  | None =>
      take (length base) current ++ option_list outcome
        ++ drop (length base) current
  end.

(** Modelled from the spec: the application of the operations of the
    indices below [i], in descending order of index; each operation is
    tried on what the base list has at its index. [None] as soon as one
    does not apply. *)
Fixpoint patch_below
    (children : gmap nat (option Value -> option (option Value)))
    (base : list Value) (i : nat) (current : list Value)
  : option (list Value) :=
  match i with
  | O => Some current
  | S j =>
      match children !! j with
      | Some child =>
          match child (base !! j) with
          | Some outcome =>
              patch_below children base j (splice base current j outcome)
          | None => None
          end
      | None => patch_below children base j current
      end
  end.

(** Modelled from the spec: the loop of the application of a [LIST]
    operation, which is not among the sources: the child operations are
    edits of the indices of the list before the change, applied from the
    highest index down. *)
Definition patch_list_with
    (step : Operation -> option Value -> option (option Value))
    (ops : gmap nat Operation) (base : list Value) : option (list Value) :=
  patch_below ((fun op => step op) <$> ops) base (index_bound ops) base.

(** Modelled from the spec: the loop of [object_diff], which is not among
    the sources, over the keys of two mappings. [REMOVE] and [ADD] for a key
    on one side only, nothing for a key with equal values, and for unequal
    values the operation [changed] finds. *)
Definition object_diff_with (changed : Value -> Value -> Operation)
    (base modified : gmap string Value) : gmap string Operation :=
  merge (fun x y =>
           match x, y with
           | Some x, Some y => if decide (x = y) then None else Some (changed x y)
           | Some _, None => Some RemoveOperation
           | None, Some y => Some (AddOperation y)
           | None, None => None
           end) base modified.

(** What an alignment does with one value of the base list: keep it, drop
    it, or change it into a value of the modified list. *)
Inductive edit :=
| Keep
| Drop
| Change (to : Value).

(** An alignment: one edit for each value of the base list, and the values
    added behind them. *)
Definition plan : Type := list edit * list Value.

Definition is_edit (e : edit) : bool :=
  match e with Keep => false | _ => true end.

(** The number of operations a plan takes. *)
Definition cost (p : plan) : nat :=
  (length (filter (fun e => is_edit e = true) p.1) + length p.2)%nat.

(** Modelled from the spec: the alignment behind the diff of two lists,
    which is not among the sources. Equal heads are kept (the common
    subsequence); of unequal heads the base one is dropped or changed into
    the modified one, whichever takes fewer operations for the rest; what
    is left of the modified list is added. An [ADD] needs an index that is
    not there yet, so values are added past the end of the base list
    only. *)
Fixpoint align (base modified : list Value) {struct base} : plan :=
  match base with
  | [] => ([], modified)
  | x :: base' =>
      let dropped := align base' modified in
      match modified with
      | [] => (Drop :: dropped.1, dropped.2)
      | y :: modified' =>
          let paired := align base' modified' in
          if decide (x = y) then (Keep :: paired.1, paired.2)
          else if decide (cost dropped <= cost paired)%nat
               then (Drop :: dropped.1, dropped.2)
               else (Change y :: paired.1, paired.2)
      end
  end.

Section ListDiff.
Variable changed : Value -> Value -> Operation.

(** [ADD] for each added value, at the indices from [i] on. *)
Fixpoint additions (added : list Value) (i : nat) : gmap nat Operation :=
  match added with
  | [] => ∅
  | y :: added' => <[i := AddOperation y]> (additions added' (S i))
  end.

(** The operations of a plan, keyed by the indices of the base list, whose
    first value has index [i]: [REMOVE] for a dropped value, for a changed
    one the operation [changed] finds, nothing for a kept one. *)
Fixpoint script (base : list Value) (edits : list edit) (added : list Value)
    (i : nat) : gmap nat Operation :=
  match base with
  | [] => additions added i
  | x :: base' =>
      let rest := script base' (tail edits) added (S i) in
      match head edits with
      | Some Drop => <[i := RemoveOperation]> rest
      | Some (Change y) => <[i := changed x y]> rest
      | _ => rest
      end
  end.

(** Modelled from the spec: the diff of two lists, which is not among the
    sources: the operations of their alignment, keyed by the indices of the
    base list. *)
Definition list_diff_with (base modified : list Value) : gmap nat Operation :=
  let p := align base modified in script base p.1 p.2 0.

End ListDiff.

Section Engine.
Variable options : Options.
Variable C : Components.

(** Modelled from the spec: the value-level diff inside [object_diff]; the
    implementation of [JSONDiff] is not among the sources, only its
    declaration. The operation for two unequal values
    at one key: for values of the same kind recurse (mappings to [OBJECT],
    lists to [LIST], strings to [DMP] if both are non-empty, numbers to
    [INCREMENT(modified - base)]); for a kind mismatch, or when the recursion
    would be empty, [REPLACE(modified)]. [list_diff] enables the recursion
    into lists; without it a list is replaced. *)
Fixpoint diff (base modified : Value) {struct base} : Operation :=
  match base, modified with
  | VObj a, VObj b =>
      let ops := object_diff_with diff a b in
      if decide (ops = ∅) then ReplaceOperation modified else ObjectOperation ops
  | VList a, VList b =>
      if list_diff options
      then let ops := list_diff_with diff a b in
           if decide (ops = ∅) then ReplaceOperation modified
           else ListOperation ops
      else ReplaceOperation modified
  | VStr a, VStr b =>
      if decide (a = EmptyString \/ b = EmptyString) then ReplaceOperation modified
      else DiffMatchPatchOperation (dmp_diff C a b)
  | VNum a, VNum b => IncrementOperation (number_sub b a)
  | _, _ => ReplaceOperation modified
  end.

(** Modelled from the spec: [object_diff( base, modified )] of [JSONDiff],
    declared in the sources and implemented outside them. For each key
    present on exactly one side [ADD] or [REMOVE]; keys with equal values
    are left out; unequal values are diffed. *)
Definition object_diff (base modified : gmap string Value)
  : gmap string Operation :=
  object_diff_with diff base modified.

(** Modelled from the spec: the step of [apply_object_diff], which is not
    among the sources. One operation applied at a path that holds
    [target] ([None]: the path is absent); [Some None] says the path is
    absent afterwards, [None] that the operation does not apply. [REMOVE]
    needs the path present, [ADD] needs it absent, [INCREMENT] needs a
    number; [REPLACE] sets the value either way. [OBJECT] and [LIST] apply
    their child operations at the keys and indices of the value at the
    path. An operation on a value of another kind than its own, and a patch
    [diff_match_patch] cannot apply, do not apply either. *)
Fixpoint apply_operation (op : Operation) (target : option Value)
    {struct op} : option (option Value) :=
  match op, target with
  | AddOperation v, None => Some (Some v)
  | RemoveOperation, Some _ => Some None
  | ReplaceOperation v, _ => Some (Some v)
  | IncrementOperation n, Some (VNum x) => Some (Some (VNum (number_add x n)))
  | ObjectOperation ops, Some (VObj base) =>
      match patch_with apply_operation ops base with
      | Some patched => Some (Some (VObj patched))
      | None => None
      end
  | ListOperation ops, Some (VList base) =>
      match patch_list_with apply_operation ops base with
      | Some patched => Some (Some (VList patched))
      | None => None
      end
  | DiffMatchPatchOperation patch, Some (VStr base) =>
      match dmp_apply C patch base with
      | Some patched => Some (Some (VStr patched))
      | None => None
      end
  | _, _ => None
  end.

(** Modelled from the spec: [apply_object_diff( changes, base )] of
    [JSONDiff], declared in the sources and implemented outside them. The
    result is a new value, [base] being a value and not a place. An unknown
    tag anywhere in [changes] fails with [MalformedOperation]; an operation
    that does not apply fails with [OperationPreconditionViolated]. *)
Definition apply_object_diff (changes : gmap string Operation)
    (base : gmap string Value) : result (gmap string Value) :=
  if malformed changes then Err MalformedOperation
  else match patch_with apply_operation changes base with
       | Some patched => Ok patched
       | None => Err OperationPreconditionViolated
       end.

(** The operation found for two unequal values has known tags only and
    turns the first value into the second. *)
Definition leads (x y : Value) : Prop :=
  has_unknown_tag (diff x y) = false
  /\ apply_operation (diff x y) (Some x) = Some (Some y).

End Engine.

(** The contract of [diff_match_patch]: a patch made from [a] to [b]
    applies to [a] and gives [b]. *)
Definition dmp_round_trip (C : Components) : Prop :=
  forall a b, dmp_apply C (dmp_diff C a b) a = Some b.

(** Adding the difference gives the modified number back: in doubles
    [x + (y - x)] is [y] only when nothing is lost in rounding. *)
Definition rounds_back (x y : number) : bool :=
  bool_decide (number_add x (number_sub y x) = y).

Section Checked.
Variable check : Value -> Value -> bool.

(** [check] holds of the unequal values two mappings have at one key: the
    pairs [object_diff_with] hands to [changed]. *)
Definition fields_checked (base modified : gmap string Value) : bool :=
  bool_decide
    (map_Forall (fun _ ok => ok = true)
       (merge (fun x y =>
                 match x, y with
                 | Some x, Some y =>
                     if decide (x = y) then None else Some (check x y)
                 | _, _ => None
                 end) base modified)).

(** [check] holds of each value of the base list and the value its edit
    changes it into: the pairs [script] hands to [changed]. *)
Fixpoint changes_checked (base : list Value) (edits : list edit) : bool :=
  match base with
  | [] => true
  | x :: base' =>
      match head edits with
      | Some (Change y) => check x y && changes_checked base' (tail edits)
      | _ => changes_checked base' (tail edits)
      end
  end.

End Checked.

Section Exact.
Variable options : Options.

(** Every pair of numbers that [diff base modified] turns into an
    [INCREMENT] rounds back. The pairs are found the way [diff] finds
    them: under the same keys of mappings and at the indices the
    alignment of two lists pairs. *)
Fixpoint exact_between (base modified : Value) {struct base} : bool :=
  match base, modified with
  | VNum x, VNum y => rounds_back x y
  | VObj a, VObj b => fields_checked exact_between a b
  | VList a, VList b =>
      if list_diff options
      then changes_checked exact_between a (align a b).1
      else true
  | _, _ => true
  end.

(** The same of the pairs of numbers that [object_diff base modified]
    turns into [INCREMENT]s. *)
Definition increments_exact (base modified : gmap string Value) : bool :=
  fields_checked exact_between base modified.

End Exact.

(** What the edits of a plan make of the base list, before the additions. *)
Fixpoint kept (base : list Value) (edits : list edit) : list Value :=
  match base with
  | [] => []
  | x :: base' =>
      match head edits with
      | Some Drop => kept base' (tail edits)
      | Some (Change y) => y :: kept base' (tail edits)
      | _ => x :: kept base' (tail edits)
      end
  end.

Section Segments.
Variable children : gmap nat (option Value -> option (option Value)).
Variable base : list Value.

(** What an index contributes to the patched list: the outcome of its
    operation or, where there is none, the value of the base list. *)
Definition segment (j : nat) : list Value :=
  match children !! j with
  | Some child => option_list (mjoin (child (base !! j)))
  | None => option_list (base !! j)
  end.

(** The contributions of the indices below [i], in ascending order. *)
Definition front (i : nat) : list Value := flat_map segment (seq 0 i).

End Segments.

(** An operation, or one nested in it under mappings and lists, has a tag
    that is none of the seven. *)
Inductive unknown_tag_in : Operation -> Prop :=
| unknown_here o : unknown_tag_in (UnknownOperation o)
| unknown_in_object ops k child :
    ops !! k = Some child -> unknown_tag_in child ->
    unknown_tag_in (ObjectOperation ops)
| unknown_in_list ops i child :
    ops !! i = Some child -> unknown_tag_in child ->
    unknown_tag_in (ListOperation ops).

(** An operation meets a path it cannot be applied to: [REMOVE] an absent
    one, [ADD] a present one, [INCREMENT] one that holds no number, or an
    operation of a nested set does, at its key of the mapping at the path
    or at its index of the list at the path. *)
Inductive violated : Operation -> option Value -> Prop :=
| violated_remove : violated RemoveOperation None
| violated_add v present : violated (AddOperation v) (Some present)
| violated_increment n target :
    (forall x, target <> Some (VNum x)) ->
    violated (IncrementOperation n) target
| violated_nested ops base k child :
    ops !! k = Some child -> violated child (base !! k) ->
    violated (ObjectOperation ops) (Some (VObj base))
| violated_in_list ops base i child :
    ops !! i = Some child -> violated child (base !! i) ->
    violated (ListOperation ops) (Some (VList base)).

(** A [diff_match_patch] that ships the whole target text as the patch. *)
Definition whole_text_components : Components :=
  {| dmp_diff := fun _ b => b;
     dmp_apply := fun patch _ => Some patch |}.

(** Lists are recursed into. *)
Definition with_list_diff : Options := {| list_diff := true |}.

End JSONDiff.

(* ===================================================================== *)
(** ** JavaScript values, promises and the calls a bucket makes *)
(* ===================================================================== *)

Module JS.

(** Run-time values as [bucket.js] handles them: it tests truthiness,
    asks [typeof x === 'function'] and reads properties. A function is
    known by its name only; what a call of it does is the environment's
    business. Numbers are integers, with [JNaN] for the one falsy number
    that is not zero. *)
Inductive jsval :=
| JUndefined
| JNull
| JBool (b : bool)
| JNum (n : Z)
| JNaN
| JStr (s : string)
| JFun (name : string)
| JError (message : string)
| JArr (items : list jsval)
| JObj (fields : gmap string jsval).

(** [!! v] *)
Definition truthy (v : jsval) : bool :=
  match v with
  | JUndefined | JNull | JNaN => false
  | JBool b => b
  | JNum n => negb (n =? 0)
  | JStr s => negb (String.eqb s EmptyString)
  | JFun _ | JError _ | JArr _ | JObj _ => true
  end.

(** [typeof v === 'function'] *)
Definition is_function (v : jsval) : bool :=
  match v with JFun _ => true | _ => false end.

(** [v.k]: reading a property of [undefined] or [null] throws a
    [TypeError] ([None]); an object yields the field or [undefined]; the
    properties read by the bucket ([id], [data], [sync]) are not defined
    on the other kinds of value. *)
Definition get_prop (v : jsval) (k : string) : option jsval :=
  match v with
  | JUndefined | JNull => None
  | JObj fields => Some (default JUndefined (fields !! k))
  | _ => Some JUndefined
  end.

Definition type_error : jsval := JError "TypeError".

(** How a promise ends: fulfilled, rejected, or never settled. *)
Inductive settled :=
| Fulfilled (v : jsval)
| Rejected (e : jsval)
| Pending.

(** The calls that leave the bucket, in the order they are made. *)
Inductive event :=
| StoreGet (id : jsval)
| StoreUpdate (id data isIndexing : jsval)
| StoreRemove (id : jsval)
| StoreFind (query : jsval)
| ChannelUpdate (object sync : jsval)
| ChannelRemove (id : jsval)
| ChannelHasLocalChanges
| ChannelGetVersion (id : jsval)
| ChannelGetRevisions (id : jsval)
| ChannelReload
| Emit (name : string) (args : list jsval)
| Call (f : jsval) (args : list jsval).

Definition is_channel_event (ev : event) : bool :=
  match ev with
  | ChannelUpdate _ _ | ChannelRemove _ | ChannelHasLocalChanges
  | ChannelGetVersion _ | ChannelGetRevisions _ | ChannelReload => true
  | _ => false
  end.

Definition is_store_event (ev : event) : bool :=
  match ev with
  | StoreGet _ | StoreUpdate _ _ _ | StoreRemove _ | StoreFind _ => true
  | _ => false
  end.

(** What a store method does with the node-style callback it is handed:
    call it with [(error, result)], never call it, or throw. *)
Inductive store_reply :=
| CallsBack (error result : jsval)
| NeverCallsBack
| StoreThrows (e : jsval).

(** What a plain call does: return a value, return a promise (given by
    the way it settles), or throw. *)
Inductive call_result :=
| Returns (v : jsval)
| ReturnsPromise (s : settled)
| Raises (e : jsval).

Definition returns_normally (r : call_result) : bool :=
  match r with Raises _ => false | _ => true end.

(** The collaborators of a bucket. Each answer may depend on everything
    that happened so far: the history ends with the call being answered.
    - [store]: the [BucketStore] behind [storeAPI];
    - [channel]: how the promise returned by a channel method settles;
    - [invoke]: a plain call (a callback, the listeners of an event, the
      change resolver, a channel method whose result is not awaited);
    - [uuid]: the identifier drawn by [uuid()]. *)
Record Env := {
  store : list event -> store_reply;
  channel : list event -> settled;
  invoke : list event -> call_result;
  uuid : list event -> string
}.

(** A computation that ends in a promise: from the history so far to the
    extended history and the way the promise settles. *)
Definition prom := list event -> list event * settled.

(** [p.then( onFulfilled, onRejected )] *)
Definition then2 (p : prom) (onFulfilled onRejected : jsval -> prom) : prom :=
  fun h =>
    match p h with
    | (h', Fulfilled v) => onFulfilled v h'
    | (h', Rejected e) => onRejected e h'
    | (h', Pending) => (h', Pending)
    end.

(** A promise settled from the start, and a handler's [return v] and
    [throw e]. The values that flow through the bucket are no promises. *)
Definition resolve (v : jsval) : prom := fun h => (h, Fulfilled v).
Definition reject (e : jsval) : prom := fun h => (h, Rejected e).

(** A promise handed in from outside, given by the way it settles. *)
Definition outside_promise (s : settled) : prom := fun h => (h, s).

(** [p.then( onFulfilled )] *)
Definition then1 (p : prom) (onFulfilled : jsval -> prom) : prom :=
  then2 p onFulfilled reject.

Section WithEnv.
Variable E : Env.

(** A call of a method of the channel that returns a promise. *)
Definition channel_call (ev : event) : prom :=
  fun h => let h' := h ++ [ev] in (h', channel E h').

(** A plain call made inside a [then] handler, its result dropped: a
    throw rejects the promise the handler feeds. *)
Definition plain_call (ev : event) : prom :=
  fun h =>
    let h' := h ++ [ev] in
    match invoke E h' with
    | Raises e => (h', Rejected e)
    | _ => (h', Fulfilled JUndefined)
    end.

(** [f( ...args )] *)
Definition call (f : jsval) (args : list jsval) : prom :=
  plain_call (Call f args).

(** [this.emit( name, ...args )] *)
Definition emit (name : string) (args : list jsval) : prom :=
  plain_call (Emit name args).

End WithEnv.

End JS.

(* ===================================================================== *)
(** ** src/simperium/bucket.js *)
(* ===================================================================== *)

Module Bucket.
Import JS.

(** The fields of a [Bucket] instance that its methods read. *)
Record bucket := {
  isIndexing : bool;
  changeResolver : jsval
}.

(** The outcome of a call that is made outside any promise: it throws, or
    it returns a promise. *)
Inductive returned :=
| Throws (e : jsval)
| Promise (s : settled).

Section WithEnv.
Variable E : Env.

(** [callbackAsPromise( task )], with [task] a store method bound to
    its arguments: [error ? reject( error ) : resolve( result )]. *)
Definition callbackAsPromise (task : event) : prom :=
  fun h =>
    let h' := h ++ [task] in
    match store E h' with
    | CallsBack error result =>
        if truthy error then (h', Rejected error) else resolve result h'
    | NeverCallsBack => (h', Pending)
    | StoreThrows e => (h', Rejected e)
    end.

(** [deprecateCallback( callback, promise )] *)
Definition deprecateCallback (callback : jsval) (promise : prom) : prom :=
  if is_function callback then
    then2 promise
      (fun result => then1 (call E callback [JNull; result])
                       (fun _ => resolve result))
      (fun error => then1 (call E callback [error])
                      (fun _ => resolve error))
  else promise.

(** [promiseAPI( store )] *)
Definition storeAPI_get (id : jsval) : prom :=
  callbackAsPromise (StoreGet id).
Definition storeAPI_update (id object isIndexing : jsval) : prom :=
  callbackAsPromise (StoreUpdate id object isIndexing).
Definition storeAPI_remove (id : jsval) : prom :=
  callbackAsPromise (StoreRemove id).
Definition storeAPI_find (query : jsval) : prom :=
  callbackAsPromise (StoreFind query).

(** [{ sync: true }] *)
Definition sync_true : jsval := JObj {[ "sync"%string := JBool true ]}.

(** The head of [Bucket.prototype.update]: the callback may sit in the
    third or the fourth place, and missing options become
    [{ sync: true }]. Returns the options and the callback in force. *)
Definition update_arguments (remoteUpdateInfo options callback : jsval)
  : jsval * jsval :=
  let '(options, callback) :=
    if is_function remoteUpdateInfo then (sync_true, remoteUpdateInfo)
    else if is_function options then (sync_true, options)
    else (options, callback) in
  let options := if truthy options then options else sync_true in
  (options, callback).

(** [options.sync] as [update] reads it off the options in force: the flag
    that reaches the channel. *)
Definition sync_flag (remoteUpdateInfo options callback : jsval) : jsval :=
  default JUndefined
    (get_prop (fst (update_arguments remoteUpdateInfo options callback)) "sync").

(** The [task] of [Bucket.prototype.update]. *)
Definition update_task (b : bucket) (id data remoteUpdateInfo options : jsval)
  : prom :=
  then1
    (then1 (storeAPI_update id data (JBool (isIndexing b)))
       (fun bucketObject =>
          match get_prop options "sync" with
          | Some sync => channel_call E (ChannelUpdate bucketObject sync)
          | None => reject type_error
          end))
    (fun bucketObject =>
       match get_prop bucketObject "data" with
       | Some data' =>
           then1 (emit E "update" [id; data'; remoteUpdateInfo])
             (fun _ => resolve bucketObject)
       | None => reject type_error
       end).

(** [Bucket.prototype.update] *)
Definition update (b : bucket)
    (id data remoteUpdateInfo options callback : jsval) : prom :=
  let '(options', callback') :=
    update_arguments remoteUpdateInfo options callback in
  deprecateCallback callback'
    (update_task b id data remoteUpdateInfo options').

(** [Bucket.prototype.add] *)
Definition add (b : bucket) (data callback : jsval) : prom :=
  fun h =>
    let id := JStr (uuid E h) in
    update b id data callback JUndefined JUndefined h.

(** [Bucket.prototype.get] *)
Definition get (b : bucket) (id callback : jsval) : prom :=
  deprecateCallback callback (storeAPI_get id).

(** [Bucket.prototype.hasLocalChanges] *)
Definition hasLocalChanges (b : bucket) (callback : jsval) : prom :=
  deprecateCallback callback (channel_call E ChannelHasLocalChanges).

(** [Bucket.prototype.getVersion] *)
Definition getVersion (b : bucket) (id callback : jsval) : prom :=
  deprecateCallback callback (channel_call E (ChannelGetVersion id)).

(** The [task] of [Bucket.prototype.touch]. *)
Definition touch_task (b : bucket) (id : jsval) : prom :=
  then1 (storeAPI_get id)
    (fun object =>
       if truthy object then
         match get_prop object "id", get_prop object "data" with
         | Some id', Some data' =>
             update b id' data' JUndefined JUndefined JUndefined
         | _, _ => reject type_error
         end
       else resolve JUndefined).

(** [Bucket.prototype.touch] *)
Definition touch (b : bucket) (id callback : jsval) : prom :=
  deprecateCallback callback (touch_task b id).

(** The [task] of [Bucket.prototype.remove]. *)
Definition remove_task (b : bucket) (id : jsval) : prom :=
  then1 (storeAPI_remove id)
    (fun result =>
       then1 (emit E "remove" [id])
         (fun _ => then1 (plain_call E (ChannelRemove id))
                     (fun _ => resolve result))).

(** [Bucket.prototype.remove] *)
Definition remove (b : bucket) (id callback : jsval) : prom :=
  deprecateCallback callback (remove_task b id).

(** [Bucket.prototype.find] *)
Definition find (b : bucket) (query callback : jsval) : prom :=
  deprecateCallback callback (storeAPI_find query).

(** [Bucket.prototype.getRevisions] *)
Definition getRevisions (b : bucket) (id callback : jsval) : prom :=
  deprecateCallback callback (channel_call E (ChannelGetRevisions id)).

(** [Bucket.prototype.reload]: the call is made outside any promise and
    its result is dropped; [Some e] when it throws [e]. *)
Definition reload (b : bucket) (h : list event) : list event * option jsval :=
  let h' := h ++ [ChannelReload] in
  (h', match invoke E h' with Raises e => Some e | _ => None end).

(** [Bucket.prototype.beforeNetworkChange] *)
Definition beforeNetworkChange (b : bucket) (resolver : jsval) : bucket :=
  {| isIndexing := isIndexing b; changeResolver := resolver |}.

(** [localStateForKey] of [Bucket.prototype.setChannel] *)
Definition localStateForKey (b : bucket) (id : jsval) : prom :=
  then1 (get b id JUndefined)
    (fun object =>
       if truthy object then
         match get_prop object "data" with
         | Some data' => resolve data'
         | None => reject type_error
         end
       else resolve JUndefined).

(** The second half of the function that [setChannel] hands to
    [channel.beforeNetworkChange]: what is done with the local state the
    resolver came up with. *)
Definition useLocalState (b : bucket) (id localState : jsval) : prom :=
  if truthy localState then resolve localState
  else localStateForKey b id.

(** The function that [setChannel] hands to
    [channel.beforeNetworkChange]; the channel calls it with the id of
    the object and the arguments of the change. *)
Definition networkChangeSubscriber (b : bucket) (id : jsval) (args : list jsval)
    (h : list event) : list event * returned :=
  if truthy (changeResolver b) then
    if is_function (changeResolver b) then
      let h' := h ++ [Call (changeResolver b) (id :: args)] in
      match invoke E h' with
      | Raises e => (h', Throws e)
      | Returns v =>
          let '(h'', s) := then1 (resolve v) (useLocalState b id) h' in
          (h'', Promise s)
      | ReturnsPromise p =>
          let '(h'', s) := then1 (outside_promise p) (useLocalState b id) h' in
          (h'', Promise s)
      end
    else (h, Throws type_error)
  else
    let '(h', s) := then1 (resolve JNull) (useLocalState b id) h in
    (h', Promise s).

End WithEnv.

End Bucket.

(* ===================================================================== *)
(** ** test/simperium/mock-channel.js and an in-memory store *)
(* ===================================================================== *)

Module Mock.
Import JS.

(** The object an in-memory store holds for [id] after the calls of [h]:
    the last [update] of the id that no [remove] followed. *)
Fixpoint stored (h : list event) (id : jsval) (found : jsval) : jsval :=
  match h with
  | [] => found
  | StoreUpdate (JStr k) data isIndexing :: h' =>
      match id with
      | JStr k' =>
          if String.eqb k k'
          then stored h' id
                 (JObj {[ "id"%string := JStr k; "data"%string := data;
                          "isIndexing"%string := isIndexing ]})
          else stored h' id found
      | _ => stored h' id found
      end
  | StoreRemove (JStr k) :: h' =>
      match id with
      | JStr k' => if String.eqb k k' then stored h' id JNull
                   else stored h' id found
      | _ => stored h' id found
      end
  | _ :: h' => stored h' id found
  end.

(** A store that keeps what it is given and never fails. *)
Definition memory_store (h : list event) : store_reply :=
  match last h with
  | Some (StoreGet id) => CallsBack JNull (stored h id JNull)
  | Some (StoreUpdate id _ _) => CallsBack JNull (stored h id JNull)
  | Some (StoreRemove _) => CallsBack JNull JUndefined
  | Some (StoreFind _) => CallsBack JNull (JArr [])
  | _ => NeverCallsBack
  end.

(** [MockChannel]: [update( object )] resolves with the object,
    [getVersion()] with [0]; [remove] does nothing. The methods the class
    does not define are not there to be called: such a call throws before
    there is a promise, so no promise of it ever settles and nothing is
    called after it. *)
Definition mock_channel (h : list event) : settled :=
  match last h with
  | Some (ChannelUpdate object _) => Fulfilled object
  | Some (ChannelGetVersion _) => Fulfilled (JNum 0)
  | _ => Pending
  end.

Definition mock_env : Env :=
  {| store := memory_store;
     channel := mock_channel;
     invoke := fun _ => Returns JUndefined;
     uuid := fun _ => "00000000-0000-4000-8000-000000000000"%string |}.

(** A store whose every operation fails with the same error. *)
Definition failing_env (e : jsval) : Env :=
  {| store := fun _ => CallsBack e JUndefined;
     channel := fun _ => Rejected e;
     invoke := fun _ => Returns JUndefined;
     uuid := fun _ => "00000000-0000-4000-8000-000000000000"%string |}.

(** As [mock_env], with every plain call (so the change resolver too)
    returning [v]. *)
Definition resolver_env (v : jsval) : Env :=
  {| store := memory_store;
     channel := mock_channel;
     invoke := fun _ => Returns v;
     uuid := fun _ => "00000000-0000-4000-8000-000000000000"%string |}.

Definition fresh_bucket : Bucket.bucket :=
  {| Bucket.isIndexing := false; Bucket.changeResolver := JUndefined |}.

Definition note : jsval := JObj {[ "content"%string := JStr "Hola mundo!" ]}.

End Mock.

(* ===================================================================== *)
(** ** What is asked of the bucket's operations *)
(* ===================================================================== *)

Module BucketContracts.
Import JS Bucket.

(** The history only grows, and an operation may be known by the first
    call it makes. *)
Definition grows (p : prom) : Prop :=
  forall h, exists rest, fst (p h) = h ++ rest.

Definition starts_with (ev : event) (p : prom) : Prop :=
  forall h, exists rest, fst (p h) = h ++ ev :: rest.

(** An operation passes a call through to the channel: it makes that one
    call and settles the way the channel's promise does. *)
Definition passes_through (E : Env) (operation : prom) (ev : event) : Prop :=
  is_channel_event ev = true /\ forall h, operation h = channel_call E ev h.

(** The callback shim on a failing task: with a callback, the callback is
    called with the error alone and, once it returns, the promise of the
    operation is fulfilled with the error; without one, the promise is
    rejected with it. *)
Definition error_to_callback (E : Env) (callback : jsval) (task operation : prom)
  : Prop :=
  forall h h' e,
    task h = (h', Rejected e) ->
    if is_function callback
    then returns_normally (invoke E (h' ++ [Call callback [e]])) = true ->
         operation h = (h' ++ [Call callback [e]], Fulfilled e)
    else operation h = (h', Rejected e).

(** The local state a store object stands for: its [data], or [undefined]
    when the store has no object. *)
Definition data_of (object : jsval) : jsval :=
  if truthy object then default JUndefined (get_prop object "data")
  else JUndefined.

End BucketContracts.

(* ===================================================================== *)
(** ** src/simperium/bucket.js: the listeners a bucket makes for its channel *)
(* ===================================================================== *)

Module BucketHandlers.
Import JS Bucket.

Section WithEnv.
Variable E : Env.

(** A call of [this.emit( name, ...args )] made outside any promise, as a
    listener of the channel does: the history with the call, and what the
    listeners of the bucket threw, if one did. *)
Definition emit_now (name : string) (args : list jsval) (h : list event)
  : list event * option jsval :=
  let h' := h ++ [Emit name args] in
  (h', match invoke E h' with Raises e => Some e | _ => None end).

(** [this.onChannelIndex = this.emit.bind( this, 'index' )] *)
Definition onChannelIndex (b : bucket) (args : list jsval) :=
  emit_now "index" args.

(** [this.onChannelError = this.emit.bind( this, 'error' )] *)
Definition onChannelError (b : bucket) (args : list jsval) :=
  emit_now "error" args.

(** [{ original, patch, isIndexing }] *)
Definition remote_info (original patch isIndexing : jsval) : jsval :=
  JObj {[ "original"%string := original; "patch"%string := patch;
          "isIndexing"%string := isIndexing ]}.

(** [{ sync: false }] *)
Definition sync_false : jsval := JObj {[ "sync"%string := JBool false ]}.

(** [this.onChannelUpdate]: the promise of [update] is made and dropped. *)
Definition onChannelUpdate (b : bucket)
    (id data original patch isIndexing : jsval) : prom :=
  update E b id data (remote_info original patch isIndexing) sync_false
    JUndefined.

(** [this.onChannelIndexingStateChange], for the booleans a channel
    reports: the bucket with its flag set, the history, and what a listener
    of [indexing] threw, if one did. *)
Definition onChannelIndexingStateChange (b : bucket) (isIndexing' : bool)
    (h : list event) : bucket * (list event * option jsval) :=
  let b' := {| isIndexing := isIndexing';
               changeResolver := changeResolver b |} in
  if isIndexing' then (b', emit_now "indexing" [] h) else (b', (h, None)).

(** [this.onChannelRemove = ( id ) => this.remove( id )] *)
Definition onChannelRemove (b : bucket) (id : jsval) : prom :=
  remove E b id JUndefined.

End WithEnv.

End BucketHandlers.

(* ===================================================================== *)
(** ** src/simperium/bucket.js: [setChannel], over event emitters *)
(* ===================================================================== *)

Module Wiring.

(** The five listeners the constructor of a bucket makes. *)
Inductive handler :=
| OnChannelIndex
| OnChannelError
| OnChannelUpdate
| OnChannelIndexingStateChange
| OnChannelRemove.

#[global] Instance handler_eq_dec : EqDecision handler.
Proof. solve_decision. Defined.

(** A function registered on an emitter: one of the listeners of a bucket
    (buckets are numbered), or any other function, known by a name. *)
Inductive listener :=
| BucketListener (bucket : nat) (f : handler)
| OtherListener (name : string).

#[global] Instance listener_eq_dec : EqDecision listener.
Proof. solve_decision. Defined.

(** The listeners of an [EventEmitter], with the event each is registered
    for, in the order they were added. *)
Abbreviation registrations := (list (string * listener)).

(** [emitter.on( name, f )]: added at the end, also when [f] is registered
    for [name] already. *)
Definition on (name : string) (f : listener) (regs : registrations)
  : registrations :=
  regs ++ [(name, f)].

(** [emitter.removeListener( name, f )]: at most one registration goes, the
    one added last. *)
Fixpoint removeListener (name : string) (f : listener) (regs : registrations)
  : registrations :=
  match regs with
  | [] => []
  | r :: regs' =>
      if decide ((name, f) ∈ regs') then r :: removeListener name f regs'
      else if decide (r = (name, f)) then regs'
      else r :: regs'
  end.

(** [test/simperium/mock-channel.js]: a [MockChannel] is an emitter with
    the field [changeResolver] that [beforeNetworkChange] sets; the
    subscriber a bucket hands in is known by the bucket. *)
Record channel_state := {
  listeners : registrations;
  network_subscriber : option nat
}.

(** The channels there are, by number. *)
Definition channels := nat -> channel_state.

Definition set_channel_state (c : nat) (s : channel_state) (w : channels)
  : channels :=
  fun c' => if decide (c' = c) then s else w c'.

(** The event names of [setChannel] with their listeners, in the order of
    the source. *)
Definition bucket_listeners (b : nat) : registrations :=
  [ ("index"%string, BucketListener b OnChannelIndex);
    ("error"%string, BucketListener b OnChannelError);
    ("update"%string, BucketListener b OnChannelUpdate);
    ("indexingStateChange"%string, BucketListener b OnChannelIndexingStateChange);
    ("remove"%string, BucketListener b OnChannelRemove) ].

(** The chain of [.removeListener( ... )] calls on the channel a bucket
    leaves. *)
Definition unsubscribe (b : nat) (s : channel_state) : channel_state :=
  {| listeners :=
       foldl (fun regs r => removeListener r.1 r.2 regs) (listeners s)
         (bucket_listeners b);
     network_subscriber := network_subscriber s |}.

(** The chain of [.on( ... )] calls on the new channel, and then
    [channel.beforeNetworkChange( ... )]. *)
Definition subscribe (b : nat) (s : channel_state) : channel_state :=
  {| listeners :=
       foldl (fun regs r => on r.1 r.2 regs) (listeners s)
         (bucket_listeners b);
     network_subscriber := Some b |}.

(** [Bucket.prototype.setChannel] for bucket [b] whose field [channel] is
    [current] ([None] before the first call): the new value of the field
    and the channels afterwards. *)
Definition setChannel (b : nat) (current : option nat) (channel : nat)
    (w : channels) : option nat * channels :=
  let w1 :=
    match current with
    | Some old => set_channel_state old (unsubscribe b (w old)) w
    | None => w
    end in
  (Some channel, set_channel_state channel (subscribe b (w1 channel)) w1).

(** A run of [setChannel] calls. *)
Definition setChannels (b : nat) (calls : list nat)
    (start : option nat * channels) : option nat * channels :=
  foldl (fun st c => setChannel b st.1 c st.2) start calls.

(** How often a listener is registered for an event. *)
Definition registered (name : string) (f : listener) (regs : registrations)
  : nat :=
  length (filter (fun r => r = (name, f)) regs).

(** The registrations that are not a given bucket's. *)
Definition is_of_bucket (b : nat) (f : listener) : bool :=
  match f with
  | BucketListener b' _ => bool_decide (b' = b)
  | OtherListener _ => false
  end.

Definition of_others (b : nat) (regs : registrations) : registrations :=
  filter (fun r => is_of_bucket b r.2 = false) regs.

(** No listener of bucket [b] is registered anywhere. *)
Definition unwired (b : nat) (w : channels) : Prop :=
  forall c name f, registered name (BucketListener b f) (listeners (w c)) = 0%nat.

(** Each of the five listeners of bucket [b] is registered once, for its
    own event, on the channel in the field [channel] of the bucket, and no
    listener of the bucket is registered anywhere else or for another
    event. *)
Definition wired (b : nat) (current : option nat) (w : channels) : Prop :=
  forall c name f,
    registered name (BucketListener b f) (listeners (w c))
    = if decide (current = Some c
                 /\ (name, BucketListener b f) ∈ bucket_listeners b)
      then 1%nat else 0%nat.

End Wiring.

(* ===================================================================== *)
(** ** sample/simplenote.js: the interrupt handler *)
(* ===================================================================== *)

Module Sample.

(** [var interval = Number.POSITIVE_INFINITY, lastInt;]: the time between
    the last two interrupts in milliseconds ([None]: infinite), and the time
    of the last one ([None]: [undefined]). *)
Record interrupts := {
  interval : option Z;
  lastInt : option Z
}.

Definition start : interrupts := {| interval := None; lastInt := None |}.

(** What the handler does besides keeping its two variables. *)
Inductive effect :=
| Log (line : string)
| Exit
| Disconnect.

(** [process.on( 'SIGINT', function() { ... } )]. The clock is read twice:
    [clock1] by [( new Date() ).getTime()], when there was an interrupt
    before, and [clock2] by [lastInt = new Date()]. After [process.exit()]
    there are no variables left ([None]). *)
Definition on_sigint (clock1 clock2 : Z) (s : interrupts)
  : list effect * option interrupts :=
  let interval' :=
    match lastInt s with
    | Some last => Some (clock1 - last)
    | None => interval s
    end in
  if match interval' with Some i => i <? 500 | None => false end
  then ([Log "Shutting down"; Exit], None)
  else ([Log "Reconnecting, press interrupt again to exit";
         Log "Disconnect and reconnect"; Disconnect],
        Some {| interval := interval'; lastInt := Some clock2 |}).

(** A run of interrupts, each with its two clock readings: the variables
    at the end, [None] once the process has exited. *)
Fixpoint interrupted (clocks : list (Z * Z)) (s : interrupts)
  : option interrupts :=
  match clocks with
  | [] => Some s
  | (clock1, clock2) :: rest =>
      match (on_sigint clock1 clock2 s).2 with
      | Some s' => interrupted rest s'
      | None => None
      end
  end.

(** Every interrupt comes at least 500 ms after the one before it, [last]
    being the time of the one before the first. *)
Fixpoint spaced (last : option Z) (clocks : list (Z * Z)) : Prop :=
  match clocks with
  | [] => True
  | (clock1, clock2) :: rest =>
      match last with Some t => 500 <= clock1 - t | None => True end
      /\ spaced (Some clock2) rest
  end.

End Sample.

(* ===================================================================== *)
(** ** Facts about the string primitives *)
(* ===================================================================== *)

Module JSStringFacts.
Import JSString.

Lemma indexOf_lower c s : -1 <= indexOf c s.
Proof.
  induction s as [|a s IH]; simpl; [lia|].
  destruct (Ascii.eqb a c); [lia|].
  destruct (indexOf c s <? 0) eqn:E; lia.
Qed.

Lemma indexOf_upper c s : indexOf c s < len s.
Proof.
  unfold len. induction s as [|a s IH]; simpl String.length; simpl indexOf; [lia|].
  destruct (Ascii.eqb a c); [lia|].
  destruct (indexOf c s <? 0) eqn:E; lia.
Qed.

Lemma indexOf_occurs c s : occurs c s = true <-> 0 <= indexOf c s.
Proof.
  induction s as [|a s IH]; simpl.
  - split; [discriminate | lia].
  - destruct (Ascii.eqb a c); simpl; [split; [lia | reflexivity]|].
    pose proof (indexOf_lower c s).
    destruct (indexOf c s <? 0) eqn:E.
    + apply Z.ltb_lt in E. rewrite IH. lia.
    + apply Z.ltb_ge in E. rewrite IH. lia.
Qed.

Lemma substring_zero_length n s : String.substring n 0 s = EmptyString.
Proof. revert n. induction s as [|a s IH]; intros [|n]; simpl; auto. Qed.

Lemma substring_whole s : String.substring 0 (String.length s) s = s.
Proof. induction s as [|a s IH]; simpl; [reflexivity | by rewrite IH]. Qed.

(** The text before index [i], then the character at [i], then the rest,
    is the whole string: the decomposition [slice] and [indexOf] rest on. *)
Lemma substring_split c s :
  0 <= indexOf c s ->
  let i := Z.to_nat (indexOf c s) in
  s = String.append (String.substring 0 i s)
        (String c (String.substring (S i) (String.length s - S i) s))
  /\ occurs c (String.substring 0 i s) = false.
Proof.
  induction s as [|a s IH]; simpl; [lia|].
  destruct (Ascii.eqb a c) eqn:Eac.
  - intros _. apply Ascii.eqb_eq in Eac. subst a. simpl.
    rewrite Nat.sub_0_r, substring_whole. split; reflexivity.
  - pose proof (indexOf_lower c s).
    destruct (indexOf c s <? 0) eqn:E; [lia|].
    apply Z.ltb_ge in E. intros _.
    destruct (IH E) as [IH1 IH2].
    replace (Z.to_nat (indexOf c s + 1)) with (S (Z.to_nat (indexOf c s))) by lia.
    simpl. rewrite Eac, IH2. simpl. split; [|reflexivity].
    rewrite IH1 at 1. reflexivity.
Qed.

End JSStringFacts.

Module ParseMessageFacts.
Import JSString JSStringFacts ParseMessage.

(** C9. For a frame that contains a colon, [parse_message] returns as
    [command] the text before the first colon and as [data] the text after
    it: [command] holds no colon, and [command], a colon and [data] make up
    the frame again. *)
Theorem parse_message_splits_at_first_colon (frame : string) :
  occurs ":"%char frame = true ->
  occurs ":"%char (command (parse_message frame)) = false
  /\ String.append (command (parse_message frame))
       (String ":"%char (data (parse_message frame))) = frame.
Proof.
  intros Hocc. apply indexOf_occurs in Hocc.
  pose proof (indexOf_upper ":"%char frame) as Hup.
  destruct (substring_split ":"%char frame Hocc) as [Hsplit Hno].
  unfold parse_message, slice, clamp; simpl command; simpl data.
  set (i := indexOf ":"%char frame) in *.
  assert (Hi : (i <? 0) = false) by (apply Z.ltb_ge; lia).
  assert (Hi1 : (i + 1 <? 0) = false) by (apply Z.ltb_ge; lia).
  rewrite Hi, Hi1. change (0 <? 0) with false. cbv iota.
  unfold len in *.
  replace (Z.to_nat (Z.min 0 (Z.of_nat (String.length frame)))) with 0%nat by lia.
  replace (Z.to_nat (Z.max (Z.min i (Z.of_nat (String.length frame))
                            - Z.min 0 (Z.of_nat (String.length frame))) 0))
    with (Z.to_nat i) by lia.
  replace (Z.to_nat (Z.min (i + 1) (Z.of_nat (String.length frame))))
    with (S (Z.to_nat i)) by lia.
  replace (Z.to_nat (Z.max (Z.of_nat (String.length frame)
                            - Z.min (i + 1) (Z.of_nat (String.length frame))) 0))
    with (String.length frame - S (Z.to_nat i))%nat by lia.
  split; [exact Hno | symmetry; exact Hsplit].
Qed.

Lemma parse_message_splits_at_first_colon_witness :
  occurs ":"%char "0:auth:user" = true
  /\ (occurs ":"%char (command (parse_message "0:auth:user")) = false
      /\ String.append (command (parse_message "0:auth:user"))
           (String ":"%char (data (parse_message "0:auth:user"))) = "0:auth:user"%string).
Proof.
  split; [reflexivity|].
  apply (parse_message_splits_at_first_colon "0:auth:user"). reflexivity.
Defined.

(** The frames of the protocol, and what [slice] makes of a frame that has
    no colon: [indexOf] is [-1], so the command loses its last character and
    the data is the whole frame. *)
Example parse_heartbeat :
  parse_message "h:1" = {| command := "h"; data := "1" |}.
Proof. vm_compute. reflexivity. Qed.

Example parse_channel_auth :
  parse_message "0:auth:user@example.com"
  = {| command := "0"; data := "auth:user@example.com" |}.
Proof. vm_compute. reflexivity. Qed.

Example parse_without_colon :
  parse_message "abc" = {| command := "ab"; data := "abc" |}.
Proof. vm_compute. reflexivity. Qed.

End ParseMessageFacts.

(* ===================================================================== *)
(** ** Facts about the diff algebra *)
(* ===================================================================== *)

Module JSONDiffFacts.
Import JSONDiff.

(** *** Induction on values and operations *)

Lemma Value_size_field fields k v :
  fields !! k = Some v -> (Value_size v < Value_size (VObj fields))%nat.
Proof.
  intros Hk. simpl.
  rewrite (map_fold_delete_L _ _ k v fields); [lia| |exact Hk].
  intros. lia.
Qed.

Lemma Value_size_item items v :
  v ∈ items -> (Value_size v < Value_size (VList items))%nat.
Proof. intros Hin. simpl. induction Hin; simpl; lia. Qed.

Lemma Value_nested_ind (P : Value -> Prop) :
  P VNull -> (forall b, P (VBool b)) -> (forall n, P (VNum n)) ->
  (forall s, P (VStr s)) ->
  (forall items, Forall P items -> P (VList items)) ->
  (forall fields, map_Forall (fun _ v => P v) fields -> P (VObj fields)) ->
  forall v, P v.
Proof.
  intros Hnull Hbool Hnum Hstr Hlist Hobj v.
  remember (Value_size v) as n eqn:Hn. revert v Hn.
  induction n as [n IH] using lt_wf_ind. intros v ->.
  destruct v as [| | | |items|fields]; auto.
  - apply Hlist, Forall_forall. intros x Hx.
    eapply IH; [|reflexivity]. by apply Value_size_item.
  - apply Hobj. intros k x Hk.
    eapply IH; [|reflexivity]. by eapply Value_size_field.
Qed.

Lemma Operation_size_child {K} `{Countable K} (ops : gmap K Operation) k op :
  ops !! k = Some op ->
  (Operation_size op
   < S (map_fold (fun _ x n => Operation_size x + n)%nat 0%nat ops))%nat.
Proof.
  intros Hk.
  rewrite (map_fold_delete_L _ _ k op ops); [lia| |exact Hk].
  intros. lia.
Qed.

Lemma Operation_nested_ind (P : Operation -> Prop) :
  (forall v, P (AddOperation v)) -> P RemoveOperation ->
  (forall v, P (ReplaceOperation v)) -> (forall n, P (IncrementOperation n)) ->
  (forall ops, map_Forall (fun _ op => P op) ops -> P (ListOperation ops)) ->
  (forall ops, map_Forall (fun _ op => P op) ops -> P (ObjectOperation ops)) ->
  (forall patch, P (DiffMatchPatchOperation patch)) ->
  (forall o, P (UnknownOperation o)) ->
  forall op, P op.
Proof.
  intros Hadd Hrem Hrep Hinc Hlist Hobj Hdmp Hunk op.
  remember (Operation_size op) as n eqn:Hn. revert op Hn.
  induction n as [n IH] using lt_wf_ind. intros op ->.
  destruct op as [| | | |ops|ops| |]; auto.
  - apply Hlist. intros k x Hk.
    eapply IH; [|reflexivity]. by eapply Operation_size_child.
  - apply Hobj. intros k x Hk.
    eapply IH; [|reflexivity]. by eapply Operation_size_child.
Qed.

(** *** Unknown tags *)

Lemma any_unknown_false {K} `{Countable K} (ops : gmap K Operation) :
  map_fold (fun _ child found => has_unknown_tag child || found) false ops = false
  <-> map_Forall (fun _ child => has_unknown_tag child = false) ops.
Proof.
  induction ops as [|k op ops Hk Hfold IH] using map_first_key_ind.
  - rewrite map_fold_empty. split; [intros _; apply map_Forall_empty | done].
  - rewrite map_fold_insert_first_key by done.
    rewrite map_Forall_insert by done.
    rewrite orb_false_iff, IH. reflexivity.
Qed.

Lemma has_unknown_tag_spec op :
  has_unknown_tag op = true <-> unknown_tag_in op.
Proof.
  induction op as [| | | |ops IH|ops IH| |] using Operation_nested_ind;
    simpl; try (split; [discriminate | inversion 1]).
  - rewrite <- not_false_iff_true, any_unknown_false. split.
    + intros Hnot. apply map_not_Forall in Hnot; [|apply _].
      destruct Hnot as (k & child & Hk & Hchild).
      apply not_false_iff_true in Hchild.
      eapply unknown_in_list; [exact Hk|]. by apply (IH k child Hk).
    + inversion 1 as [|?|? i child Hi Hchild]; subst. intros Hall.
      apply (IH i child Hi) in Hchild. rewrite (Hall i child Hi) in Hchild.
      discriminate.
  - rewrite <- not_false_iff_true, any_unknown_false. split.
    + intros Hnot. apply map_not_Forall in Hnot; [|apply _].
      destruct Hnot as (k & child & Hk & Hchild).
      apply not_false_iff_true in Hchild.
      eapply unknown_in_object; [exact Hk|]. by apply (IH k child Hk).
    + inversion 1 as [|? k child Hk Hchild|?]; subst. intros Hall.
      apply (IH k child Hk) in Hchild. rewrite (Hall k child Hk) in Hchild.
      discriminate.
  - split; [intros _; constructor | reflexivity].
Qed.

Lemma malformed_false ops :
  malformed ops = false
  <-> forall k op, ops !! k = Some op -> has_unknown_tag op = false.
Proof. unfold malformed. simpl. apply any_unknown_false. Qed.

(** *** Key-by-key application *)

Lemma patch_with_Some step ops base patched :
  patch_with step ops base = Some patched <->
  (forall k op, ops !! k = Some op -> is_Some (step op (base !! k)))
  /\ (forall k, patched !! k
                = match ops !! k with
                  | Some op => mjoin (step op (base !! k))
                  | None => base !! k
                  end).
Proof.
  unfold patch_with. cbv zeta.
  set (outcomes := merge _ ops base).
  assert (Hlook : forall k, outcomes !! k
                    = match ops !! k with
                      | Some op => Some (step op (base !! k))
                      | None => match base !! k with
                                | Some v => Some (Some (Some v))
                                | None => None
                                end
                      end).
  { intros k. unfold outcomes. rewrite lookup_merge.
    destruct (ops !! k), (base !! k); reflexivity. }
  assert (Hall : map_Forall (fun _ outcome => is_Some outcome) outcomes
                 <-> forall k op, ops !! k = Some op -> is_Some (step op (base !! k))).
  { split.
    - intros HF k op Hk. apply (HF k). by rewrite Hlook, Hk.
    - intros Hops k outcome. rewrite Hlook.
      destruct (ops !! k) as [op|] eqn:Hk.
      + intros [= <-]. by apply Hops.
      + destruct (base !! k); [intros [= <-]; eauto | discriminate]. }
  destruct (decide (map_Forall _ outcomes)) as [HF|HF].
  - split.
    + intros [= <-]. split; [by apply Hall|].
      intros k. rewrite lookup_omap, Hlook.
      destruct (ops !! k); [reflexivity|]. by destruct (base !! k).
    + intros [_ Hpatched]. f_equal. apply map_eq. intros k.
      rewrite Hpatched, lookup_omap, Hlook.
      destruct (ops !! k); [reflexivity|]. by destruct (base !! k).
  - split; [discriminate|]. intros [Hops _]. by apply Hall in Hops.
Qed.

Lemma patch_with_None step ops base :
  patch_with step ops base = None <->
  exists k op, ops !! k = Some op /\ step op (base !! k) = None.
Proof.
  split.
  - intros Hnone.
    destruct (decide (map_Forall
                        (fun k op => is_Some (step op (base !! k))) ops))
      as [HF|HF].
    + assert (Hsome : is_Some (patch_with step ops base)).
      { exists (omap (fun outcome : option (option Value) => mjoin outcome)
                   (merge (fun op target =>
                             match op with
                             | Some op => Some (step op target)
                             | None => Some (Some target)
                             end) ops base)).
        apply patch_with_Some. split; [exact HF|].
        intros k. rewrite lookup_omap, lookup_merge.
        destruct (ops !! k), (base !! k); reflexivity. }
      rewrite Hnone in Hsome. by destruct Hsome.
    + apply map_not_Forall in HF; [|apply _].
      destruct HF as (k & op & Hk & Hstep). exists k, op. split; [done|].
      destruct (step op (base !! k)); [|done]. destruct Hstep. eauto.
  - intros (k & op & Hk & Hstep).
    destruct (patch_with step ops base) as [patched|] eqn:Hp; [|done].
    apply patch_with_Some in Hp as [Hops _].
    specialize (Hops k op Hk). rewrite Hstep in Hops. by destruct Hops.
Qed.

Lemma patch_with_empty step base : patch_with step ∅ base = Some base.
Proof.
  apply patch_with_Some. split.
  - intros k op. by rewrite lookup_empty.
  - intros k. by rewrite lookup_empty.
Qed.

(** *** What [object_diff_with] puts at a key *)

Lemma lookup_object_diff_with changed base modified k :
  object_diff_with changed base modified !! k
  = match base !! k, modified !! k with
    | Some x, Some y => if decide (x = y) then None else Some (changed x y)
    | Some _, None => Some RemoveOperation
    | None, Some y => Some (AddOperation y)
    | None, None => None
    end.
Proof.
  unfold object_diff_with. rewrite lookup_merge.
  by destruct (base !! k), (modified !! k).
Qed.

Lemma object_diff_with_same changed base :
  object_diff_with changed base base = ∅.
Proof.
  apply map_eq. intros k. rewrite lookup_object_diff_with, lookup_empty.
  destruct (base !! k); [|reflexivity]. by rewrite decide_True.
Qed.

(** *** Lists patched from the highest index down *)

(** Every index an operation set names lies below [index_bound], which is
    the least such bound. *)
Lemma index_bound_spec (ops : gmap nat Operation) i op :
  ops !! i = Some op -> (i < index_bound ops)%nat.
Proof.
  unfold index_bound. revert i op.
  induction ops as [|k x ops Hk Hfold IH] using map_first_key_ind; intros i op.
  - by rewrite lookup_empty.
  - rewrite map_fold_insert_first_key by done.
    rewrite lookup_insert_Some. intros [[<- _]|[_ Hi]]; [lia|].
    specialize (IH i op Hi). lia.
Qed.

Lemma index_bound_least (ops : gmap nat Operation) top :
  (forall i op, ops !! i = Some op -> (i < top)%nat) ->
  (index_bound ops <= top)%nat.
Proof.
  unfold index_bound.
  induction ops as [|k x ops Hk Hfold IH] using map_first_key_ind; intros Hall.
  - rewrite map_fold_empty. lia.
  - rewrite map_fold_insert_first_key by done.
    assert (k < top)%nat by (apply (Hall k x); by rewrite lookup_insert_eq).
    assert (map_fold (fun i _ top => S i `max` top)%nat 0%nat ops <= top)%nat.
    { apply IH. intros i op Hi. apply (Hall i op).
      rewrite lookup_insert_ne; [done|]. intros <-. congruence. }
    lia.
Qed.

Section PatchBelow.
Variable children : gmap nat (option Value -> option (option Value)).
Variable base : list Value.

Abbreviation segment := (segment children base).
Abbreviation front := (front children base).

Lemma front_S i : front (S i) = front i ++ segment i.
Proof.
  unfold JSONDiff.front. rewrite seq_S, flat_map_app. simpl. by rewrite app_nil_r.
Qed.

(** When the operations of the indices below [i] all apply, going down from
    [i] leaves what each of these indices contributes, in ascending order,
    in front of what was behind them. *)
Lemma patch_below_front i : forall rest,
  (forall j child, (j < i)%nat -> children !! j = Some child ->
                   is_Some (child (base !! j))) ->
  patch_below children base i (take i base ++ rest) = Some (front i ++ rest).
Proof.
  induction i as [|j IH]; intros rest Hall; [reflexivity|].
  rewrite front_S, <- app_assoc. simpl.
  assert (Hbelow : forall k child, (k < j)%nat -> children !! k = Some child ->
                                   is_Some (child (base !! k)))
    by (intros k child Hk; apply Hall; lia).
  unfold JSONDiff.segment.
  destruct (children !! j) as [child|] eqn:Hchild.
  - destruct (Hall j child (Nat.lt_succ_diag_r j) Hchild) as [outcome Houtcome].
    rewrite Houtcome. simpl.
    rewrite <- (IH _ Hbelow). f_equal.
    unfold splice. destruct (base !! j) as [x|] eqn:Hx.
    + rewrite (take_S_r _ _ _ Hx), <- app_assoc.
      assert (Hlen : length (take j base) = j).
      { apply length_take_le. apply lookup_lt_Some in Hx. lia. }
      rewrite take_app_length' by done.
      rewrite (app_assoc _ [x] rest), (drop_app_length' _ _ (S j));
        [reflexivity|]. rewrite length_app, Hlen. simpl. lia.
    + apply lookup_ge_None in Hx.
      rewrite (take_ge base (S j)), (take_ge base j) by lia.
      rewrite take_app_length, drop_app_length. reflexivity.
  - rewrite <- (IH _ Hbelow). f_equal.
    destruct (base !! j) as [x|] eqn:Hx.
    + by rewrite (take_S_r _ _ _ Hx), <- app_assoc.
    + apply lookup_ge_None in Hx.
      rewrite (take_ge base (S j)), (take_ge base j) by lia. reflexivity.
Qed.

(** One operation that does not apply stops the whole. *)
Lemma patch_below_None i current j child :
  (j < i)%nat -> children !! j = Some child -> child (base !! j) = None ->
  patch_below children base i current = None.
Proof.
  revert current. induction i as [|k IH]; intros current Hj Hchild Hnone; [lia|].
  simpl. destruct (decide (j = k)) as [->|Hne].
  - by rewrite Hchild, Hnone.
  - destruct (children !! k) as [other|]; [|apply IH; [lia|done..]].
    destruct (other (base !! k)); [|done]. apply IH; [lia|done..].
Qed.

(** Indices without an operation change nothing. *)
Lemma patch_below_beyond i top current :
  (forall j, (top <= j)%nat -> children !! j = None) ->
  (top <= i)%nat ->
  patch_below children base i current = patch_below children base top current.
Proof.
  intros Hnone Hle. induction Hle as [|k Hle IH]; [reflexivity|].
  simpl. by rewrite (Hnone k Hle).
Qed.

End PatchBelow.

(** Going down the indices comes to the same as collecting, index by index
    upwards, the outcome of each operation on the base list. *)
Lemma patch_list_with_front step ops base top :
  (forall i op, ops !! i = Some op -> is_Some (step op (base !! i))) ->
  (forall i op, ops !! i = Some op -> (i < top)%nat) ->
  (length base <= top)%nat ->
  patch_list_with step ops base
  = Some (front ((fun op => step op) <$> ops) base top).
Proof.
  intros Hall Htop Hlen. unfold patch_list_with.
  set (children := (fun op => step op) <$> ops).
  assert (Hchildren : forall j, children !! j = (fun op => step op) <$> ops !! j)
    by (intros j; apply lookup_fmap).
  rewrite <- (patch_below_beyond children base top (index_bound ops)).
  - rewrite <- (app_nil_r base) at 2. rewrite <- (take_ge base top) at 2 by done.
    rewrite (patch_below_front children base top []); [by rewrite app_nil_r|].
    intros j child _. rewrite Hchildren.
    destruct (ops !! j) as [op|] eqn:Hop; [|discriminate].
    intros [= <-]. by apply Hall.
  - intros j Hj. rewrite Hchildren.
    destruct (ops !! j) as [op|] eqn:Hop; [|reflexivity].
    apply index_bound_spec in Hop. lia.
  - by apply index_bound_least.
Qed.

Lemma patch_list_with_None step ops base i op :
  ops !! i = Some op -> step op (base !! i) = None ->
  patch_list_with step ops base = None.
Proof.
  intros Hop Hnone. unfold patch_list_with.
  apply (patch_below_None _ _ _ _ i (fun target => step op target)).
  - by eapply index_bound_spec.
  - by rewrite lookup_fmap, Hop.
  - exact Hnone.
Qed.

Lemma patch_list_with_empty step base : patch_list_with step ∅ base = Some base.
Proof. reflexivity. Qed.

(** *** The alignment of two lists *)

(** A plan has one edit for each value of the base list, and what it keeps
    and adds is the modified list. It changes a value only into a
    different one. *)
Lemma align_length a : forall b, length (align a b).1 = length a.
Proof.
  induction a as [|x a IH]; intros b; [reflexivity|].
  simpl. destruct b as [|y b]; simpl; [by rewrite IH|].
  repeat case_decide; simpl; by rewrite IH.
Qed.

Lemma align_kept a : forall b, kept a (align a b).1 ++ (align a b).2 = b.
Proof.
  induction a as [|x a IH]; intros b; [reflexivity|].
  simpl. destruct b as [|y b]; simpl; [apply IH|].
  repeat case_decide; simpl; subst; rewrite ?IH; reflexivity.
Qed.

Lemma align_changes a : forall b i x y,
  a !! i = Some x -> (align a b).1 !! i = Some (Change y) -> x <> y.
Proof.
  induction a as [|x0 a IH]; intros b i x y; [done|].
  simpl. destruct b as [|y0 b].
  - destruct i as [|i]; simpl; [discriminate|]. apply IH.
  - repeat case_decide; destruct i as [|i]; simpl;
      try discriminate; try apply IH.
    intros [= <-] [= <-]. done.
Qed.

Lemma cost_cons e edits added :
  cost (e :: edits, added)
  = ((if is_edit e then 1 else 0) + cost (edits, added))%nat.
Proof.
  unfold cost. simpl. rewrite filter_cons.
  destruct (decide (is_edit e = true)) as [He|He]; destruct e; simpl in *;
    try done; lia.
Qed.

Lemma cost_pair (p : plan) : cost p = cost (p.1, p.2).
Proof. by destruct p. Qed.

Lemma align_nil_r a : cost (align a []) = length a.
Proof.
  induction a as [|x a IH]; [reflexivity|].
  simpl. rewrite cost_cons, <- cost_pair, IH. reflexivity.
Qed.

(** Dropping the head of the base list is always an option, and a value
    more to reach costs one operation at most. *)
Lemma align_one_more a :
  forall b y, (cost (align a b) <= S (cost (align a (y :: b))))%nat.
Proof.
  induction a as [|x a IH]; intros b y.
  - unfold cost. simpl. lia.
  - assert (Hdrop : forall b, (cost (align (x :: a) b) <= S (cost (align a b)))%nat).
    { intros [|z b'']; simpl.
      - by rewrite cost_cons, <- cost_pair.
      - repeat case_decide; rewrite cost_cons, <- cost_pair; simpl;
          [apply IH | lia | lia]. }
    specialize (Hdrop b). pose proof (IH b y) as Hmore.
    revert Hdrop. generalize (cost (align (x :: a) b)). intros n Hdrop.
    simpl.
    repeat case_decide; rewrite cost_cons, <- cost_pair; simpl; lia.
Qed.

(** No plan that makes the modified list of the base list takes fewer
    operations than the alignment. *)
Lemma align_minimal a : forall b (p : plan),
  length p.1 = length a -> kept a p.1 ++ p.2 = b ->
  (cost (align a b) <= cost p)%nat.
Proof.
  induction a as [|x a IH]; intros b [edits added]; simpl.
  - destruct edits; [|discriminate]. intros _ <-. unfold cost. simpl. lia.
  - destruct edits as [|e edits]; [discriminate|]. intros [= Hlen]. simpl.
    rewrite (cost_cons e).
    destruct e as [| |y']; simpl; intros Hkept.
    + (* kept *)
      destruct b as [|y b]; [discriminate|]. injection Hkept as <- Hkept.
      rewrite decide_True by done. rewrite cost_cons, <- cost_pair. simpl.
      by apply (IH b (edits, added)).
    + (* dropped *)
      specialize (IH b (edits, added) Hlen Hkept).
      destruct b as [|y b].
      * rewrite cost_cons, <- cost_pair. simpl. lia.
      * pose proof (align_one_more a b y).
        repeat case_decide; rewrite cost_cons, <- cost_pair; simpl; lia.
    + (* changed *)
      destruct b as [|y b]; [discriminate|]. injection Hkept as -> Hkept.
      specialize (IH b (edits, added) Hlen Hkept).
      repeat case_decide; rewrite cost_cons, <- cost_pair; simpl; lia.
Qed.

(** *** The operation set of two lists, index by index *)

Lemma lookup_additions added : forall i j,
  additions added i !! j
  = if decide (i <= j)%nat then AddOperation <$> added !! (j - i)%nat else None.
Proof.
  induction added as [|y added IH]; intros i j; simpl.
  - rewrite lookup_empty. by case_decide.
  - destruct (decide (j = i)) as [->|Hne].
    + rewrite lookup_insert_eq, decide_True, Nat.sub_diag by lia. reflexivity.
    + rewrite lookup_insert_ne, IH by done.
      repeat case_decide; try lia; [|reflexivity].
      replace (j - i)%nat with (S (j - S i)) by lia. reflexivity.
Qed.

(** The operation at an index: for an index of the base list what its edit
    asks for, past its end the additions in their order. *)
Lemma lookup_script changed base : forall edits added i j,
  script changed base edits added i !! j
  = if decide (i <= j)%nat
    then match base !! (j - i)%nat with
         | Some x =>
             match edits !! (j - i)%nat with
             | Some Drop => Some RemoveOperation
             | Some (Change y) => Some (changed x y)
             | _ => None
             end
         | None => AddOperation <$> added !! (j - i - length base)%nat
         end
    else None.
Proof.
  induction base as [|x base IH]; intros edits added i j.
  - simpl. rewrite lookup_additions. case_decide; [|reflexivity].
    by rewrite Nat.sub_0_r.
  - assert (Hrest : script changed base (tail edits) added (S i) !! j
                    = if decide (i < j)%nat
                      then match (x :: base) !! (j - i)%nat with
                           | Some x =>
                               match edits !! (j - i)%nat with
                               | Some Drop => Some RemoveOperation
                               | Some (Change y) => Some (changed x y)
                               | _ => None
                               end
                           | None =>
                               AddOperation
                                 <$> added !! (j - i - length (x :: base))%nat
                           end
                      else None).
    { rewrite IH. repeat case_decide; try lia; [|reflexivity].
      replace (j - i)%nat with (S (j - S i)) by lia. simpl.
      rewrite lookup_tail. reflexivity. }
    cbn [script]. destruct (decide (j = i)) as [->|Hne].
    + rewrite decide_True, Nat.sub_diag by lia. cbn [lookup list_lookup].
      rewrite <- head_lookup.
      destruct (head edits) as [[| |y]|]; rewrite ?lookup_insert_eq; try done;
        rewrite Hrest, decide_False by lia; reflexivity.
    + transitivity (script changed base (tail edits) added (S i) !! j).
      { destruct (head edits) as [[| |y]|]; rewrite ?lookup_insert_ne by done;
          reflexivity. }
      rewrite Hrest. repeat case_decide; try lia; reflexivity.
Qed.

Lemma flat_map_kept (f : nat -> list Value) base : forall edits i,
  (forall j x, base !! j = Some x ->
     f (i + j)%nat = match edits !! j with
                     | Some Drop => []
                     | Some (Change y) => [y]
                     | _ => [x]
                     end) ->
  flat_map f (seq i (length base)) = kept base edits.
Proof.
  induction base as [|x base IH]; intros edits i Hf; [reflexivity|].
  simpl. rewrite (IH (tail edits) (S i)).
  - specialize (Hf 0%nat x eq_refl). rewrite Nat.add_0_r in Hf. rewrite Hf.
    rewrite <- head_lookup. by destruct (head edits) as [[| |y]|].
  - intros j y Hj. replace (S i + j)%nat with (i + S j)%nat by lia.
    rewrite (Hf (S j) y Hj), lookup_tail. reflexivity.
Qed.

Lemma flat_map_added (f : nat -> list Value) added : forall i,
  (forall k, f (i + k)%nat = option_list (added !! k)) ->
  flat_map f (seq i (length added)) = added.
Proof.
  induction added as [|y added IH]; intros i Hf; [reflexivity|].
  simpl. rewrite (IH (S i)).
  - specialize (Hf 0%nat). rewrite Nat.add_0_r in Hf. by rewrite Hf.
  - intros k. replace (S i + k)%nat with (i + S k)%nat by lia. apply Hf.
Qed.

(** Applied to the base list, the operation set of a plan gives what the
    plan keeps, followed by what it adds. *)
Lemma script_patches C changed base edits added :
  (forall i x y, base !! i = Some x -> edits !! i = Some (Change y) ->
     apply_operation C (changed x y) (Some x) = Some (Some y)) ->
  patch_list_with (apply_operation C) (script changed base edits added 0) base
  = Some (kept base edits ++ added).
Proof.
  intros Hchanged.
  set (ops := script changed base edits added 0).
  assert (Hops : forall j, ops !! j
            = match base !! j with
              | Some x =>
                  match edits !! j with
                  | Some Drop => Some RemoveOperation
                  | Some (Change y) => Some (changed x y)
                  | _ => None
                  end
              | None => AddOperation <$> added !! (j - length base)%nat
              end).
  { intros j. unfold ops. rewrite lookup_script, decide_True by lia.
    by rewrite !Nat.sub_0_r. }
  rewrite (patch_list_with_front _ ops base (length base + length added)).
  - f_equal. unfold front.
    rewrite seq_app, flat_map_app. f_equal.
    + apply flat_map_kept. intros j x Hj. unfold segment. simpl.
      rewrite lookup_fmap, Hops, Hj.
      destruct (edits !! j) as [[| |y]|] eqn:Hedit; simpl; try reflexivity.
      by rewrite (Hchanged j x y Hj Hedit).
    + apply flat_map_added. intros k. unfold segment. simpl.
      assert (Hnone : base !! (length base + k)%nat = None)
        by (apply lookup_ge_None; lia).
      rewrite lookup_fmap, Hops, Hnone.
      replace (length base + k - length base)%nat with k by lia.
      by destruct (added !! k).
  - intros i op. rewrite Hops.
    destruct (base !! i) as [x|] eqn:Hx.
    + destruct (edits !! i) as [[| |y]|] eqn:Hedit; try discriminate.
      * intros [= <-]. simpl. eauto.
      * intros [= <-]. rewrite (Hchanged i x y Hx Hedit). eauto.
    + destruct (added !! (i - length base)%nat); [|discriminate].
      intros [= <-]. simpl. eauto.
  - intros i op. rewrite Hops.
    destruct (base !! i) as [x|] eqn:Hx.
    + intros _. apply lookup_lt_Some in Hx. lia.
    + destruct (added !! (i - length base)%nat) eqn:Hadd; [|discriminate].
      intros _. apply lookup_lt_Some in Hadd. apply lookup_ge_None in Hx. lia.
  - lia.
Qed.

Lemma script_known changed base edits added i op :
  (forall i x y, base !! i = Some x -> edits !! i = Some (Change y) ->
     has_unknown_tag (changed x y) = false) ->
  script changed base edits added 0 !! i = Some op ->
  has_unknown_tag op = false.
Proof.
  intros Hchanged. rewrite lookup_script, decide_True by lia.
  rewrite !Nat.sub_0_r.
  destruct (base !! i) as [x|] eqn:Hx.
  - destruct (edits !! i) as [[| |y]|] eqn:Hedit; try discriminate.
    + by intros [= <-].
    + intros [= <-]. by eapply Hchanged.
  - destruct (added !! (i - length base)%nat); [|discriminate].
    by intros [= <-].
Qed.

(** *** The pairs of numbers a diff turns into increments *)

Lemma fields_checked_spec check base modified :
  fields_checked check base modified = true
  <-> forall k x y, base !! k = Some x -> modified !! k = Some y -> x <> y ->
                    check x y = true.
Proof.
  unfold fields_checked. rewrite bool_decide_eq_true. split.
  - intros Hall k x y Hx Hy Hne. apply (Hall k).
    rewrite lookup_merge, Hx, Hy. simpl. by rewrite decide_False.
  - intros Hall k ok. rewrite lookup_merge.
    destruct (base !! k) as [x|] eqn:Hx, (modified !! k) as [y|] eqn:Hy;
      simpl; try discriminate.
    case_decide; [discriminate|]. intros [= <-]. by eapply Hall.
Qed.

Lemma changes_checked_spec check base : forall edits,
  changes_checked check base edits = true
  <-> forall i x y, base !! i = Some x -> edits !! i = Some (Change y) ->
                    check x y = true.
Proof.
  induction base as [|x0 base IH]; intros edits; simpl.
  - split; [intros _ i x y; by rewrite lookup_nil | done].
  - assert (Htail : changes_checked check base (tail edits) = true
                    <-> forall i x y, base !! i = Some x ->
                          edits !! S i = Some (Change y) -> check x y = true).
    { rewrite IH. split; intros H i x y Hx He; apply (H i x y Hx);
        by rewrite ?lookup_tail in *. }
    destruct (head edits) as [e|] eqn:Hhead.
    + rewrite head_lookup in Hhead. destruct e as [| |y0].
      * rewrite Htail. split.
        -- intros H [|i] x y; simpl; [congruence | apply H].
        -- intros H i x y. apply (H (S i)).
      * rewrite Htail. split.
        -- intros H [|i] x y; simpl; [congruence | apply H].
        -- intros H i x y. apply (H (S i)).
      * rewrite andb_true_iff, Htail. split.
        -- intros [H0 H] [|i] x y; simpl; [|apply H].
           intros [= <-]. rewrite Hhead. by intros [= <-].
        -- intros H. split; [by apply (H 0%nat) | intros i x y; apply (H (S i))].
    + rewrite head_lookup in Hhead. rewrite Htail. split.
      * intros H [|i] x y; simpl; [congruence | apply H].
      * intros H i x y. apply (H (S i)).
Qed.

(** *** The engine at work *)

Example diff_of_a_note :
  object_diff with_list_diff whole_text_components
    {[ "content"%string := VStr "Hi"; "views"%string := VNum (number_of_Z 5);
       "draft"%string := VBool true;
       "tags"%string := VList [VStr "a"; VStr "b"; VStr "c"] ]}
    {[ "content"%string := VStr "Hi there"; "views"%string := VNum (number_of_Z 8);
       "tags"%string := VList [VStr "a"; VStr "c"; VStr "d"];
       "pinned"%string := VBool false ]}
  = {[ "content"%string := DiffMatchPatchOperation "Hi there";
       "views"%string := IncrementOperation (number_of_Z 3);
       "draft"%string := RemoveOperation;
       "tags"%string :=
         ListOperation {[ 1%nat := RemoveOperation;
                          3%nat := AddOperation (VStr "d") ]};
       "pinned"%string := AddOperation (VBool false) ]}.
Proof. vm_compute. reflexivity. Qed.

Example add_to_a_present_key :
  apply_object_diff whole_text_components
    {[ "content"%string := AddOperation (VStr "Hi") ]}
    {[ "content"%string := VStr "Hola" ]}
  = Err OperationPreconditionViolated.
Proof. vm_compute. reflexivity. Qed.

Example list_patched_from_the_top :
  patch_list_with (apply_operation whole_text_components)
    {[ 0%nat := RemoveOperation; 2%nat := ReplaceOperation (VStr "C");
       3%nat := AddOperation (VStr "d"); 4%nat := AddOperation (VStr "e") ]}
    [VStr "a"; VStr "b"; VStr "c"]
  = Some [VStr "b"; VStr "C"; VStr "d"; VStr "e"].
Proof. vm_compute. reflexivity. Qed.

(** *** Round trip *)

Section RoundTrip.
Variable options : Options.
Variable C : Components.
Hypothesis dmp_ok : dmp_round_trip C.

Abbreviation diff := (diff options C).
Abbreviation apply_operation := (apply_operation C).
Abbreviation leads := (leads options C).
Abbreviation exact_between := (exact_between options).

Lemma object_diff_with_leads base modified :
  (forall k x y, base !! k = Some x -> modified !! k = Some y -> x <> y ->
                 leads x y) ->
  malformed (object_diff_with diff base modified) = false
  /\ patch_with apply_operation (object_diff_with diff base modified) base
     = Some modified.
Proof.
  intros Hleads. split.
  - apply malformed_false. intros k op. rewrite lookup_object_diff_with.
    destruct (base !! k) as [x|] eqn:Hx, (modified !! k) as [y|] eqn:Hy;
      try (intros [= <-]; reflexivity).
    destruct (decide (x = y)) as [|Hne]; [discriminate|].
    intros [= <-]. by apply (Hleads k x y).
  - apply patch_with_Some. split.
    + intros k op. rewrite lookup_object_diff_with.
      destruct (base !! k) as [x|] eqn:Hx, (modified !! k) as [y|] eqn:Hy;
        try (intros [= <-]; simpl; eauto).
      destruct (decide (x = y)) as [|Hne]; [discriminate|].
      intros [= <-]. destruct (Hleads k x y Hx Hy Hne) as [_ ->]. eauto.
    + intros k. rewrite lookup_object_diff_with.
      destruct (base !! k) as [x|] eqn:Hx, (modified !! k) as [y|] eqn:Hy;
        try reflexivity.
      destruct (decide (x = y)) as [->|Hne]; [reflexivity|].
      by destruct (Hleads k x y Hx Hy Hne) as [_ ->].
Qed.

Lemma list_diff_with_leads base modified :
  (forall i x y, base !! i = Some x ->
     (align base modified).1 !! i = Some (Change y) -> leads x y) ->
  has_unknown_tag (ListOperation (list_diff_with diff base modified)) = false
  /\ patch_list_with apply_operation (list_diff_with diff base modified) base
     = Some modified.
Proof.
  intros Hleads. unfold list_diff_with. cbv zeta. split.
  - simpl. apply any_unknown_false. intros i op Hop.
    eapply script_known; [|exact Hop].
    intros j x y Hx Hedit. by destruct (Hleads j x y Hx Hedit).
  - rewrite script_patches; [by rewrite align_kept|].
    intros j x y Hx Hedit. by destruct (Hleads j x y Hx Hedit).
Qed.

Lemma diff_leads x : forall y, x <> y -> exact_between x y = true -> leads x y.
Proof.
  induction x as [| | | |items IH|fields IH] using Value_nested_ind;
    intros y Hne Hexact; destruct y as [| | |t|items'|fields'];
    try (split; reflexivity); try congruence.
  - (* numbers *)
    split; [reflexivity|]. simpl in *.
    apply bool_decide_eq_true in Hexact. by rewrite Hexact.
  - (* strings *)
    unfold leads. simpl.
    destruct (decide (s = EmptyString \/ t = EmptyString));
      [split; reflexivity|].
    split; [reflexivity|]. simpl. by rewrite dmp_ok.
  - (* lists *)
    unfold leads.
    change (diff (VList items) (VList items'))
      with (if list_diff options
            then if decide (list_diff_with diff items items' = ∅)
                 then ReplaceOperation (VList items')
                 else ListOperation (list_diff_with diff items items')
            else ReplaceOperation (VList items')).
    change (exact_between (VList items) (VList items'))
      with (if list_diff options
            then changes_checked exact_between items (align items items').1
            else true) in Hexact.
    destruct (list_diff options); [|split; reflexivity].
    destruct (decide (list_diff_with diff items items' = ∅));
      [split; reflexivity|].
    destruct (list_diff_with_leads items items') as [Htags Happly].
    { intros i x y Hx Hedit.
      rewrite Forall_lookup in IH. apply (IH i x Hx).
      - by eapply align_changes.
      - by eapply changes_checked_spec. }
    split; [exact Htags|].
    change (apply_operation (ListOperation ?ops) (Some (VList ?base)))
      with (match patch_list_with apply_operation ops base with
            | Some patched => Some (Some (VList patched))
            | None => None
            end).
    by rewrite Happly.
  - (* mappings *)
    unfold leads.
    change (diff (VObj fields) (VObj fields'))
      with (if decide (object_diff_with diff fields fields' = ∅)
            then ReplaceOperation (VObj fields')
            else ObjectOperation (object_diff_with diff fields fields')).
    change (exact_between (VObj fields) (VObj fields'))
      with (fields_checked exact_between fields fields') in Hexact.
    destruct (decide (object_diff_with diff fields fields' = ∅));
      [split; reflexivity|].
    destruct (object_diff_with_leads fields fields') as [Htags Happly].
    { intros k x y Hx Hy Hxy. apply (IH k x Hx); [done|].
      by eapply fields_checked_spec. }
    split; [exact Htags|].
    change (apply_operation (ObjectOperation ?ops) (Some (VObj ?base)))
      with (match patch_with apply_operation ops base with
            | Some patched => Some (Some (VObj patched))
            | None => None
            end).
    by rewrite Happly.
Qed.

End RoundTrip.

(** C1, as the operations have it. With a [diff_match_patch] whose patches
    apply to the text they were made from, applying the diff of two
    mappings to the first gives the second, provided that every number of
    the first that the diff pairs with another number of the second rounds
    back: base + (modified - base) is the modified number in double
    arithmetic. Lists are diffed by alignment when [list_diff] is set and
    replaced when it is not; the round trip holds either way. *)
Theorem apply_object_diff_round_trip options C (a b : gmap string Value) :
  dmp_round_trip C ->
  increments_exact options a b = true ->
  apply_object_diff C (object_diff options C a b) a = Ok b.
Proof.
  intros Hdmp Hexact. unfold apply_object_diff, object_diff.
  destruct (object_diff_with_leads options C a b) as [-> ->]; [|reflexivity].
  intros k x y Hx Hy Hne. apply diff_leads; [done..|].
  by eapply fields_checked_spec.
Qed.

Lemma apply_object_diff_round_trip_witness :
  apply_object_diff whole_text_components
    (object_diff with_list_diff whole_text_components
       {[ "content"%string := VStr "Hola mundo!";
          "tags"%string := VList [VStr "a"; VStr "b"; VStr "c"];
          "views"%string := VNum (number_of_Z 5);
          "meta"%string := VObj {[ "deleted"%string := VBool false ]} ]}
       {[ "content"%string := VStr "Hola mundo! El Fin";
          "tags"%string := VList [VStr "a"; VStr "c"; VStr "d"];
          "views"%string := VNum (number_of_Z 8);
          "meta"%string := VObj {[ "deleted"%string := VBool true ]};
          "shareURL"%string := VStr EmptyString ]})
    {[ "content"%string := VStr "Hola mundo!";
       "tags"%string := VList [VStr "a"; VStr "b"; VStr "c"];
       "views"%string := VNum (number_of_Z 5);
       "meta"%string := VObj {[ "deleted"%string := VBool false ]} ]}
  = Ok {[ "content"%string := VStr "Hola mundo! El Fin";
          "tags"%string := VList [VStr "a"; VStr "c"; VStr "d"];
          "views"%string := VNum (number_of_Z 8);
          "meta"%string := VObj {[ "deleted"%string := VBool true ]};
          "shareURL"%string := VStr EmptyString ]}.
Proof.
  apply apply_object_diff_round_trip.
  - intros a b. reflexivity.
  - vm_compute. reflexivity.
Defined.

(** C1, the claim as written fails: from 1e16 to 1 the diff is
    [INCREMENT(1 - 1e16)], and 1 - 1e16 rounds to -1e16; applied to 1e16
    the increment gives 0, not 1. *)
Lemma round_trip_lost_to_rounding :
  object_diff with_list_diff whole_text_components
    {[ "n"%string := VNum (number_of_Z (10 ^ 16)) ]}
    {[ "n"%string := VNum (number_of_Z 1) ]}
  = {[ "n"%string := IncrementOperation (number_of_Z (- 10 ^ 16)) ]}
  /\ apply_object_diff whole_text_components
       (object_diff with_list_diff whole_text_components
          {[ "n"%string := VNum (number_of_Z (10 ^ 16)) ]}
          {[ "n"%string := VNum (number_of_Z 1) ]})
       {[ "n"%string := VNum (number_of_Z (10 ^ 16)) ]}
     = Ok {[ "n"%string := VNum (number_of_Z 0) ]}
  /\ apply_object_diff whole_text_components
       (object_diff with_list_diff whole_text_components
          {[ "n"%string := VNum (number_of_Z (10 ^ 16)) ]}
          {[ "n"%string := VNum (number_of_Z 1) ]})
       {[ "n"%string := VNum (number_of_Z (10 ^ 16)) ]}
     <> Ok {[ "n"%string := VNum (number_of_Z 1) ]}.
Proof.
  split; [vm_compute; reflexivity|]. split; [vm_compute; reflexivity|].
  intros Heq.
  apply (f_equal (fun r : result (gmap string Value) =>
                    match r with
                    | Ok fields => fields !! "n"%string
                    | Err _ => None
                    end)) in Heq.
  vm_compute in Heq. discriminate.
Qed.

(** C3. The diff of a mapping with itself is the empty operation set, and
    the empty operation set applied to a mapping gives the mapping. *)
Theorem object_diff_identity options C (a : gmap string Value) :
  object_diff options C a a = ∅ /\ apply_object_diff C ∅ a = Ok a.
Proof.
  split; [apply object_diff_with_same|].
  unfold apply_object_diff.
  replace (malformed ∅) with false
    by (symmetry; apply malformed_false; intros k op; by rewrite lookup_empty).
  by rewrite patch_with_empty.
Qed.

(** An operation that meets a path it cannot be applied to does not apply. *)
Lemma violated_does_not_apply C op target :
  violated op target -> apply_operation C op target = None.
Proof.
  induction 1 as [|v present|n target Hnum|ops base k child Hk _ IH
                 |ops base i child Hi _ IH].
  - reflexivity.
  - reflexivity.
  - destruct target as [[| |x| | |]|]; try reflexivity. by destruct (Hnum x).
  - change (apply_operation C (ObjectOperation ops) (Some (VObj base)))
      with (match patch_with (apply_operation C) ops base with
            | Some patched => Some (Some (VObj patched))
            | None => None
            end).
    replace (patch_with (apply_operation C) ops base) with (@None (gmap string Value));
      [reflexivity|].
    symmetry. apply patch_with_None. eauto.
  - change (apply_operation C (ListOperation ops) (Some (VList base)))
      with (match patch_list_with (apply_operation C) ops base with
            | Some patched => Some (Some (VList patched))
            | None => None
            end).
    by rewrite (patch_list_with_None _ ops base i child Hi IH).
Qed.

(** C4. An operation set with an unknown tag in it, at any depth, fails
    with [MalformedOperation]. A set of known tags in which some operation
    meets a path it cannot be applied to ([REMOVE] an absent one, [ADD] a
    present one, [INCREMENT] one without a number), at the top or at any
    depth under nested mappings and lists, fails with
    [OperationPreconditionViolated]. *)
Theorem apply_object_diff_errors C (ops : gmap string Operation)
    (base : gmap string Value) :
  ((exists k op, ops !! k = Some op /\ unknown_tag_in op) ->
   apply_object_diff C ops base = Err MalformedOperation)
  /\ ((forall k op, ops !! k = Some op -> ~ unknown_tag_in op) ->
      (exists k op, ops !! k = Some op /\ violated op (base !! k)) ->
      apply_object_diff C ops base = Err OperationPreconditionViolated).
Proof.
  unfold apply_object_diff. split.
  - intros (k & op & Hk & Hunknown).
    assert (Hmal : malformed ops = true).
    { apply has_unknown_tag_spec. by eapply unknown_in_object. }
    by rewrite Hmal.
  - intros Hknown (k & op & Hk & Hviolated).
    assert (Hmal : malformed ops = false).
    { apply malformed_false. intros j child Hj.
      apply not_true_is_false. rewrite has_unknown_tag_spec. by eapply Hknown. }
    rewrite Hmal.
    replace (patch_with (apply_operation C) ops base) with (@None (gmap string Value));
      [reflexivity|].
    symmetry. apply patch_with_None. exists k, op.
    split; [exact Hk|]. by apply violated_does_not_apply.
Qed.

Lemma apply_object_diff_errors_witness :
  apply_object_diff whole_text_components
    {[ "content"%string := UnknownOperation "x" ]}
    {[ "content"%string := VStr "Hola mundo!" ]}
  = Err MalformedOperation
  /\ apply_object_diff whole_text_components
       {[ "meta"%string :=
            ObjectOperation {[ "deleted"%string := RemoveOperation ]} ]}
       {[ "meta"%string := VObj ∅ ]}
     = Err OperationPreconditionViolated
  /\ apply_object_diff whole_text_components
       {[ "tags"%string :=
            ListOperation
              {[ 1%nat := IncrementOperation (number_of_Z 1) ]} ]}
       {[ "tags"%string := VList [VStr "a"; VStr "b"] ]}
     = Err OperationPreconditionViolated.
Proof.
  assert (Hknown : forall (name : string) (nested : Operation),
            has_unknown_tag nested = false ->
            forall k op, ({[ name := nested ]} : gmap string Operation) !! k
                         = Some op -> ~ unknown_tag_in op).
  { intros name nested Hnested k op Hk Hunknown.
    apply has_unknown_tag_spec in Hunknown.
    apply lookup_singleton_Some in Hk as [_ <-]. congruence. }
  split; [|split].
  - apply (proj1 (apply_object_diff_errors whole_text_components _ _)).
    exists "content"%string, (UnknownOperation "x").
    split; [reflexivity | constructor].
  - apply (proj2 (apply_object_diff_errors whole_text_components _ _)).
    + apply Hknown. vm_compute. reflexivity.
    + exists "meta"%string,
        (ObjectOperation {[ "deleted"%string := RemoveOperation ]}).
      split; [reflexivity|].
      rewrite lookup_singleton_eq.
      apply (violated_nested _ _ "deleted"%string RemoveOperation);
        [reflexivity|].
      rewrite lookup_empty. constructor.
  - apply (proj2 (apply_object_diff_errors whole_text_components _ _)).
    + apply Hknown. vm_compute. reflexivity.
    + exists "tags"%string,
        (ListOperation {[ 1%nat := IncrementOperation (number_of_Z 1) ]}).
      split; [reflexivity|].
      rewrite lookup_singleton_eq.
      apply (violated_in_list _ _ 1%nat (IncrementOperation (number_of_Z 1)));
        [reflexivity|].
      apply violated_increment. intros x. discriminate.
Defined.

End JSONDiffFacts.
(* ===================================================================== *)
(** ** Facts about promises *)
(* ===================================================================== *)

Module JSFacts.
Import JS BucketContracts.

Lemma then2_fulfilled p f g h h' v :
  p h = (h', Fulfilled v) -> then2 p f g h = f v h'.
Proof. unfold then2. intros ->. reflexivity. Qed.

Lemma then2_rejected p f g h h' e :
  p h = (h', Rejected e) -> then2 p f g h = g e h'.
Proof. unfold then2. intros ->. reflexivity. Qed.

Lemma then2_pending p f g h h' :
  p h = (h', Pending) -> then2 p f g h = (h', Pending).
Proof. unfold then2. intros ->. reflexivity. Qed.

Lemma then1_fulfilled p f h h' v :
  p h = (h', Fulfilled v) -> then1 p f h = f v h'.
Proof. apply then2_fulfilled. Qed.

Lemma then1_rejected p f h h' e :
  p h = (h', Rejected e) -> then1 p f h = (h', Rejected e).
Proof. apply then2_rejected. Qed.

Lemma then1_pending p f h h' :
  p h = (h', Pending) -> then1 p f h = (h', Pending).
Proof. apply then2_pending. Qed.

Lemma plain_call_returns E ev h :
  returns_normally (invoke E (h ++ [ev])) = true ->
  plain_call E ev h = (h ++ [ev], Fulfilled JUndefined).
Proof. unfold plain_call. cbv zeta. by destruct (invoke E (h ++ [ev])). Qed.

Lemma plain_call_throws E ev h e :
  invoke E (h ++ [ev]) = Raises e ->
  plain_call E ev h = (h ++ [ev], Rejected e).
Proof. unfold plain_call. cbv zeta. intros ->. reflexivity. Qed.

(** A truthy value has properties to read. *)
Lemma get_prop_truthy v k : truthy v = true -> is_Some (get_prop v k).
Proof. destruct v; simpl; intros; try discriminate; eauto. Qed.

Lemma starts_with_grows ev p : starts_with ev p -> grows p.
Proof. intros Hp h. destruct (Hp h) as [rest ->]. eauto. Qed.

Lemma grows_resolve v : grows (resolve v).
Proof. intros h. exists []. by rewrite app_nil_r. Qed.

Lemma grows_reject e : grows (reject e).
Proof. intros h. exists []. by rewrite app_nil_r. Qed.

Lemma starts_with_channel_call E ev : starts_with ev (channel_call E ev).
Proof. intros h. exists []. reflexivity. Qed.

Lemma starts_with_plain_call E ev : starts_with ev (plain_call E ev).
Proof.
  intros h. exists []. unfold plain_call. cbv zeta.
  by destruct (invoke E (h ++ [ev])).
Qed.

Lemma grows_then2 p f g :
  grows p -> (forall v, grows (f v)) -> (forall e, grows (g e)) ->
  grows (then2 p f g).
Proof.
  intros Hp Hf Hg h. unfold then2.
  destruct (Hp h) as [r1 H1]. destruct (p h) as [h' [v|e|]]; simpl in H1; subst h'.
  - destruct (Hf v (h ++ r1)) as [r2 ->]. exists (r1 ++ r2). by rewrite app_assoc.
  - destruct (Hg e (h ++ r1)) as [r2 ->]. exists (r1 ++ r2). by rewrite app_assoc.
  - eauto.
Qed.

Lemma starts_with_then2 ev p f g :
  starts_with ev p -> (forall v, grows (f v)) -> (forall e, grows (g e)) ->
  starts_with ev (then2 p f g).
Proof.
  intros Hp Hf Hg h. unfold then2.
  destruct (Hp h) as [r1 H1]. destruct (p h) as [h' [v|e|]]; simpl in H1; subst h'.
  - destruct (Hf v (h ++ ev :: r1)) as [r2 ->]. exists (r1 ++ r2).
    by rewrite <- app_assoc.
  - destruct (Hg e (h ++ ev :: r1)) as [r2 ->]. exists (r1 ++ r2).
    by rewrite <- app_assoc.
  - eauto.
Qed.

Lemma grows_then1 p f : grows p -> (forall v, grows (f v)) -> grows (then1 p f).
Proof. intros. apply grows_then2; auto using grows_reject. Qed.

Lemma starts_with_then1 ev p f :
  starts_with ev p -> (forall v, grows (f v)) -> starts_with ev (then1 p f).
Proof. intros. apply starts_with_then2; auto using grows_reject. Qed.

Create HintDb history.
#[global] Hint Resolve grows_resolve grows_reject starts_with_channel_call
  starts_with_plain_call grows_then1 grows_then2 starts_with_then1
  starts_with_then2 : history.

End JSFacts.

(* ===================================================================== *)
(** ** Facts about the bucket *)
(* ===================================================================== *)

Module BucketFacts.
Import JS JSFacts Bucket BucketContracts.

(** The test double at work: [remove] deletes from the store, emits, then
    tells the channel; [add] with a callback in the second place passes it to
    [update] in the third, where it is both the callback and the
    [remoteUpdateInfo] of the event. *)
Example remove_calls_in_order :
  remove Mock.mock_env Mock.fresh_bucket (JStr "note") JUndefined []
  = ([StoreRemove (JStr "note"); Emit "remove" [JStr "note"];
      ChannelRemove (JStr "note")],
     Fulfilled JUndefined).
Proof. vm_compute. reflexivity. Qed.

Example add_with_callback :
  fst (add Mock.mock_env Mock.fresh_bucket Mock.note (JFun "done") [])
  = [StoreUpdate (JStr "00000000-0000-4000-8000-000000000000") Mock.note
       (JBool false);
     ChannelUpdate
       (JObj {[ "id"%string := JStr "00000000-0000-4000-8000-000000000000";
                "data"%string := Mock.note;
                "isIndexing"%string := JBool false ]})
       (JBool true);
     Emit "update"
       [JStr "00000000-0000-4000-8000-000000000000"; Mock.note; JFun "done"];
     Call (JFun "done")
       [JNull;
        JObj {[ "id"%string := JStr "00000000-0000-4000-8000-000000000000";
                "data"%string := Mock.note;
                "isIndexing"%string := JBool false ]}]].
Proof. vm_compute. reflexivity. Qed.

Example update_without_sync :
  fst (update Mock.mock_env Mock.fresh_bucket (JStr "note") Mock.note
         (JObj {[ "isIndexing"%string := JBool false ]})
         (JObj {[ "sync"%string := JBool false ]}) JUndefined [])
  = [StoreUpdate (JStr "note") Mock.note (JBool false);
     ChannelUpdate
       (JObj {[ "id"%string := JStr "note"; "data"%string := Mock.note;
                "isIndexing"%string := JBool false ]})
       (JBool false);
     Emit "update"
       [JStr "note"; Mock.note; JObj {[ "isIndexing"%string := JBool false ]}]].
Proof. vm_compute. reflexivity. Qed.

(** The options in force are never [undefined] or [null], so reading
    [options.sync] cannot throw. *)
Lemma update_arguments_truthy remoteUpdateInfo options callback :
  truthy (fst (update_arguments remoteUpdateInfo options callback)) = true.
Proof.
  unfold update_arguments.
  destruct (is_function remoteUpdateInfo); [reflexivity|].
  destruct (is_function options); [reflexivity|].
  simpl. destruct (truthy options) eqn:Ho; [exact Ho | reflexivity].
Qed.

Lemma sync_flag_read remoteUpdateInfo options callback :
  get_prop (fst (update_arguments remoteUpdateInfo options callback)) "sync"
  = Some (sync_flag remoteUpdateInfo options callback).
Proof.
  unfold sync_flag.
  destruct (get_prop_truthy _ "sync"
              (update_arguments_truthy remoteUpdateInfo options callback))
    as [v ->].
  reflexivity.
Qed.

(** The flag is [true] when the options are left out (or falsy) and when
    a callback sits in the third or fourth place. *)
Lemma sync_flag_default remoteUpdateInfo options callback :
  is_function remoteUpdateInfo || is_function options || negb (truthy options)
    = true ->
  sync_flag remoteUpdateInfo options callback = JBool true.
Proof.
  unfold sync_flag, update_arguments.
  destruct (is_function remoteUpdateInfo); [reflexivity|].
  destruct (is_function options); [reflexivity|].
  simpl. destruct (truthy options); [discriminate | reflexivity].
Qed.

(** The three calls of a successful update, in order. *)
Lemma update_task_trace E b id data remoteUpdateInfo options h
    bucketObject sync sent data' :
  let h1 := h ++ [StoreUpdate id data (JBool (isIndexing b))] in
  let h2 := h1 ++ [ChannelUpdate bucketObject sync] in
  let h3 := h2 ++ [Emit "update" [id; data'; remoteUpdateInfo]] in
  storeAPI_update E id data (JBool (isIndexing b)) h = (h1, Fulfilled bucketObject) ->
  get_prop options "sync" = Some sync ->
  channel E h2 = Fulfilled sent ->
  get_prop sent "data" = Some data' ->
  returns_normally (invoke E h3) = true ->
  update_task E b id data remoteUpdateInfo options h = (h3, Fulfilled sent).
Proof.
  intros h1 h2 h3 Hstore Hsync Hchan Hdata Hemit.
  unfold update_task.
  erewrite then1_fulfilled; cycle 1.
  { erewrite then1_fulfilled by exact Hstore.
    rewrite Hsync. unfold channel_call. cbv zeta. fold h1 h2.
    rewrite Hchan. reflexivity. }
  rewrite Hdata.
  erewrite then1_fulfilled; [reflexivity|].
  unfold emit. eapply plain_call_returns. exact Hemit.
Qed.

(** When the store write fails nothing is forwarded and nothing is emitted:
    the task ends with the write. *)
Lemma update_task_store_failure E b id data remoteUpdateInfo options h e :
  let h1 := h ++ [StoreUpdate id data (JBool (isIndexing b))] in
  storeAPI_update E id data (JBool (isIndexing b)) h = (h1, Rejected e) ->
  update_task E b id data remoteUpdateInfo options h = (h1, Rejected e).
Proof.
  intros h1 Hstore. unfold update_task.
  erewrite then1_rejected; [reflexivity|].
  erewrite then1_rejected; [reflexivity|exact Hstore].
Qed.

(** A call of [update] whose store write and channel update succeed
    makes these calls, in this order: the write of [data] to the store,
    the channel's [update] with the stored object and the sync flag, the
    event [update] with the id, the data of the object the channel's
    promise resolved with ([bucketObject.data] in the second handler) and
    the third argument of the call; only the callback, if there is one,
    follows. *)
Lemma update_calls_in_order E b id data remoteUpdateInfo options callback
    h bucketObject sent data' :
  let sync := sync_flag remoteUpdateInfo options callback in
  let callback' := snd (update_arguments remoteUpdateInfo options callback) in
  let h1 := h ++ [StoreUpdate id data (JBool (isIndexing b))] in
  let h2 := h1 ++ [ChannelUpdate bucketObject sync] in
  let h3 := h2 ++ [Emit "update" [id; data'; remoteUpdateInfo]] in
  storeAPI_update E id data (JBool (isIndexing b)) h = (h1, Fulfilled bucketObject) ->
  channel E h2 = Fulfilled sent ->
  get_prop sent "data" = Some data' ->
  returns_normally (invoke E h3) = true ->
  fst (update E b id data remoteUpdateInfo options callback h)
  = h ++ [StoreUpdate id data (JBool (isIndexing b));
          ChannelUpdate bucketObject sync;
          Emit "update" [id; data'; remoteUpdateInfo]]
      ++ (if is_function callback' then [Call callback' [JNull; sent]] else []).
Proof.
  intros sync callback' h1 h2 h3 Hstore Hchan Hdata Hemit.
  assert (Htask : update_task E b id data remoteUpdateInfo
                    (fst (update_arguments remoteUpdateInfo options callback)) h
                  = (h3, Fulfilled sent))
    by (erewrite update_task_trace; eauto using sync_flag_read).
  assert (Hh3 : h3 = h ++ [StoreUpdate id data (JBool (isIndexing b));
                           ChannelUpdate bucketObject sync;
                           Emit "update" [id; data'; remoteUpdateInfo]]).
  { unfold h3, h2, h1. by rewrite <- !app_assoc. }
  unfold update.
  destruct (update_arguments remoteUpdateInfo options callback)
    as [options' cb'] eqn:Hargs.
  simpl in Htask. subst callback'. simpl snd.
  rewrite (app_assoc h), <- Hh3.
  unfold deprecateCallback. destruct (is_function cb') eqn:Hcb.
  - erewrite then2_fulfilled by exact Htask.
    unfold then1, then2, call, plain_call. cbv zeta.
    by destruct (invoke E (h3 ++ [Call cb' [JNull; sent]])).
  - rewrite Htask. simpl. by rewrite app_nil_r.
Qed.

(** C6. A call of [update] makes these calls, in this order: the write of
    [data] to the store, the channel's [update] with the stored object and
    the sync flag, the event [update] with the id, [data] and the third
    argument of the call; only the callback, if there is one, follows. The
    flag is [true] when the options are left out and when a callback sits
    in the third or fourth place. The event takes its data from the object
    the channel's promise resolved with, so that object is to hold the
    data written: it does when the store resolves with the object it
    stored and the channel with the object it was handed, as
    [MockChannel.update] does. *)
Theorem update_writes_forwards_emits E b id data remoteUpdateInfo options callback
    h bucketObject sent :
  let sync := sync_flag remoteUpdateInfo options callback in
  let callback' := snd (update_arguments remoteUpdateInfo options callback) in
  let h1 := h ++ [StoreUpdate id data (JBool (isIndexing b))] in
  let h2 := h1 ++ [ChannelUpdate bucketObject sync] in
  let h3 := h2 ++ [Emit "update" [id; data; remoteUpdateInfo]] in
  storeAPI_update E id data (JBool (isIndexing b)) h = (h1, Fulfilled bucketObject) ->
  channel E h2 = Fulfilled sent ->
  get_prop sent "data" = Some data ->
  returns_normally (invoke E h3) = true ->
  fst (update E b id data remoteUpdateInfo options callback h)
  = h ++ [StoreUpdate id data (JBool (isIndexing b));
          ChannelUpdate bucketObject sync;
          Emit "update" [id; data; remoteUpdateInfo]]
      ++ (if is_function callback' then [Call callback' [JNull; sent]] else [])
  /\ (is_function remoteUpdateInfo || is_function options || negb (truthy options)
        = true -> sync = JBool true).
Proof.
  intros sync callback' h1 h2 h3 Hstore Hchan Hdata Hemit.
  split; [|apply sync_flag_default].
  by apply (update_calls_in_order E b id data remoteUpdateInfo options callback
              h bucketObject sent data).
Qed.

Lemma update_writes_forwards_emits_witness :
  fst (update Mock.mock_env Mock.fresh_bucket (JStr "note") Mock.note
         JUndefined JUndefined JUndefined [])
  = [StoreUpdate (JStr "note") Mock.note (JBool false);
     ChannelUpdate
       (JObj {[ "id"%string := JStr "note"; "data"%string := Mock.note;
                "isIndexing"%string := JBool false ]})
       (JBool true);
     Emit "update" [JStr "note"; Mock.note; JUndefined]].
Proof.
  refine (proj1 (update_writes_forwards_emits Mock.mock_env Mock.fresh_bucket
            (JStr "note") Mock.note JUndefined JUndefined JUndefined []
            (JObj {[ "id"%string := JStr "note"; "data"%string := Mock.note;
                     "isIndexing"%string := JBool false ]})
            (JObj {[ "id"%string := JStr "note"; "data"%string := Mock.note;
                     "isIndexing"%string := JBool false ]})
            _ _ _ _)); reflexivity.
Defined.

(** What [deprecateCallback] makes of a task that fails. *)
Lemma deprecateCallback_rejected E callback task :
  error_to_callback E callback task (deprecateCallback E callback task).
Proof.
  intros h h' e Htask. unfold deprecateCallback.
  destruct (is_function callback); [|exact Htask].
  intros Hcb. erewrite then2_rejected by exact Htask.
  unfold call. erewrite then1_fulfilled; [reflexivity|].
  by apply plain_call_returns.
Qed.

(** C10. Each operation of the bucket that takes a callback hands a
    failure of its underlying task to the callback as the first argument
    and then fulfils its promise with the error; with no callback the
    promise is rejected. For [update] the callback is the one in force
    after the arguments are sorted out; [add] passes its callback in the
    third place of [update]. *)
Theorem callback_gets_error_and_promise_fulfils E b :
  (forall id cb, error_to_callback E cb (storeAPI_get E id) (get E b id cb))
  /\ (forall id data remoteUpdateInfo options cb,
        error_to_callback E
          (snd (update_arguments remoteUpdateInfo options cb))
          (update_task E b id data remoteUpdateInfo
             (fst (update_arguments remoteUpdateInfo options cb)))
          (update E b id data remoteUpdateInfo options cb))
  /\ (forall data cb,
        error_to_callback E cb
          (fun h => update_task E b (JStr (uuid E h)) data cb sync_true h)
          (add E b data cb))
  /\ (forall id cb, error_to_callback E cb (remove_task E b id) (remove E b id cb))
  /\ (forall query cb,
        error_to_callback E cb (storeAPI_find E query) (find E b query cb))
  /\ (forall id cb,
        error_to_callback E cb (channel_call E (ChannelGetVersion id))
          (getVersion E b id cb))
  /\ (forall cb,
        error_to_callback E cb (channel_call E ChannelHasLocalChanges)
          (hasLocalChanges E b cb))
  /\ (forall id cb,
        error_to_callback E cb (channel_call E (ChannelGetRevisions id))
          (getRevisions E b id cb))
  /\ (forall id cb, error_to_callback E cb (touch_task E b id) (touch E b id cb)).
Proof.
  repeat split; intros; try apply deprecateCallback_rejected.
  - unfold update.
    destruct (update_arguments remoteUpdateInfo options cb). simpl.
    apply deprecateCallback_rejected.
  - intros h h' e Htask. unfold add, update, update_arguments. simpl.
    destruct (is_function cb) eqn:Hcb; simpl.
    + intros Hret.
      pose proof (deprecateCallback_rejected E cb
                    (update_task E b (JStr (uuid E h)) data cb sync_true)
                    h h' e Htask) as Hd.
      rewrite Hcb in Hd. exact (Hd Hret).
    + exact Htask.
Qed.

Lemma callback_gets_error_and_promise_fulfils_witness :
  get (Mock.failing_env (JError "store is down")) Mock.fresh_bucket
    (JStr "note") (JFun "callback") []
  = ([StoreGet (JStr "note"); Call (JFun "callback") [JError "store is down"]],
     Fulfilled (JError "store is down"))
  /\ get (Mock.failing_env (JError "store is down")) Mock.fresh_bucket
       (JStr "note") JUndefined []
     = ([StoreGet (JStr "note")], Rejected (JError "store is down")).
Proof.
  pose proof (proj1 (callback_gets_error_and_promise_fulfils
                       (Mock.failing_env (JError "store is down"))
                       Mock.fresh_bucket)) as Hget.
  split.
  - exact (Hget (JStr "note") (JFun "callback") [] _ _ eq_refl eq_refl).
  - exact (Hget (JStr "note") JUndefined [] _ _ eq_refl).
Defined.

(** Every store method is called before anything else happens. *)
Lemma callbackAsPromise_history E task h :
  fst (callbackAsPromise E task h) = h ++ [task].
Proof.
  unfold callbackAsPromise. cbv zeta.
  destruct (store E (h ++ [task])) as [error result| |e]; try reflexivity.
  by destruct (truthy error).
Qed.

Lemma starts_with_callbackAsPromise E task :
  starts_with task (callbackAsPromise E task).
Proof. intros h. exists []. apply callbackAsPromise_history. Qed.

#[global] Hint Resolve starts_with_callbackAsPromise : history.

Lemma grows_deprecateCallback E callback p :
  grows p -> grows (deprecateCallback E callback p).
Proof.
  intros Hp. unfold deprecateCallback, call.
  destruct (is_function callback); [|exact Hp].
  apply grows_then2; [exact Hp| |]; intros;
    eauto using starts_with_grows with history.
Qed.

Lemma starts_with_deprecateCallback E callback ev p :
  starts_with ev p -> starts_with ev (deprecateCallback E callback p).
Proof.
  intros Hp. unfold deprecateCallback, call.
  destruct (is_function callback); [|exact Hp].
  apply starts_with_then2; [exact Hp| |]; intros;
    eauto using starts_with_grows with history.
Qed.

(** The first thing [update] does is write to the store. *)
Lemma starts_with_update E b id data remoteUpdateInfo options callback :
  starts_with (StoreUpdate id data (JBool (isIndexing b)))
    (update E b id data remoteUpdateInfo options callback).
Proof.
  unfold update. destruct (update_arguments remoteUpdateInfo options callback).
  apply starts_with_deprecateCallback. unfold update_task, storeAPI_update, emit.
  apply starts_with_then1; [apply starts_with_then1|].
  - auto with history.
  - intros v. destruct (get_prop _ _);
      eauto using starts_with_grows with history.
  - intros v. destruct (get_prop v "data");
      eauto 6 using starts_with_grows with history.
Qed.

(** The first thing [touch] does is read the store. *)
Lemma starts_with_touch E b id callback :
  starts_with (StoreGet id) (touch E b id callback).
Proof.
  unfold touch. apply starts_with_deprecateCallback.
  unfold touch_task, storeAPI_get.
  apply starts_with_then1; [auto with history|].
  intros object. destruct (truthy object); [|auto with history].
  destruct (get_prop object "id"), (get_prop object "data");
    eauto using starts_with_grows, starts_with_update with history.
Qed.

(** [touch] on the object the store holds (or not) for the id. *)
Lemma touch_task_fulfilled E b id h object :
  storeAPI_get E id h = (h ++ [StoreGet id], Fulfilled object) ->
  touch_task E b id h
  = if truthy object
    then update E b (default JUndefined (get_prop object "id"))
           (default JUndefined (get_prop object "data"))
           JUndefined JUndefined JUndefined (h ++ [StoreGet id])
    else (h ++ [StoreGet id], Fulfilled JUndefined).
Proof.
  intros Hget. unfold touch_task. erewrite then1_fulfilled by exact Hget.
  destruct (truthy object) eqn:Hobj; [|reflexivity].
  destruct (get_prop_truthy object "id" Hobj) as [i ->].
  destruct (get_prop_truthy object "data" Hobj) as [d ->].
  reflexivity.
Qed.

(** C7, as the code has it. [getVersion], [getRevisions] and [reload] hand
    the call to the channel and do nothing else. [touch] does not: it reads
    the object from the store; when there is none it is done, with nothing
    said to the channel; when there is one it runs [update] on the object's
    id and data, so the store is written, the channel's [update] is called
    and the event [update] goes out. *)
Theorem passes_through_except_touch E b id :
  passes_through E (getVersion E b id JUndefined) (ChannelGetVersion id)
  /\ passes_through E (getRevisions E b id JUndefined) (ChannelGetRevisions id)
  /\ (forall h, fst (reload E b h) = h ++ [ChannelReload])
  /\ starts_with (StoreGet id) (touch E b id JUndefined)
  /\ (forall h object,
        storeAPI_get E id h = (h ++ [StoreGet id], Fulfilled object) ->
        touch E b id JUndefined h
        = if truthy object
          then update E b (default JUndefined (get_prop object "id"))
                 (default JUndefined (get_prop object "data"))
                 JUndefined JUndefined JUndefined (h ++ [StoreGet id])
          else (h ++ [StoreGet id], Fulfilled JUndefined)).
Proof.
  repeat split; try reflexivity.
  - apply starts_with_touch.
  - intros h object Hget. apply touch_task_fulfilled. exact Hget.
Qed.

(** C7, the claim as written fails for [touch]: for an id the store does
    not know, the one call made is a read of the store, and nothing reaches
    the channel; for an id it knows, the store is written and the event
    [update] is emitted around the channel's [update]. *)
Lemma touch_is_no_pass_through :
  touch Mock.mock_env Mock.fresh_bucket (JStr "note") JUndefined []
  = ([StoreGet (JStr "note")], Fulfilled JUndefined)
  /\ (forall ev,
        ~ passes_through Mock.mock_env
            (touch Mock.mock_env Mock.fresh_bucket (JStr "note") JUndefined) ev)
  /\ fst (touch Mock.mock_env Mock.fresh_bucket (JStr "note") JUndefined
            [StoreUpdate (JStr "note") Mock.note (JBool false)])
     = [StoreUpdate (JStr "note") Mock.note (JBool false);
        StoreGet (JStr "note");
        StoreUpdate (JStr "note") Mock.note (JBool false);
        ChannelUpdate
          (JObj {[ "id"%string := JStr "note"; "data"%string := Mock.note;
                   "isIndexing"%string := JBool false ]})
          (JBool true);
        Emit "update" [JStr "note"; Mock.note; JUndefined]].
Proof.
  split; [reflexivity|]. split; [|reflexivity].
  intros ev [Hev Hpass]. specialize (Hpass []).
  assert (Hfst : fst (touch Mock.mock_env Mock.fresh_bucket (JStr "note")
                        JUndefined [])
                 = [ev]) by (rewrite Hpass; reflexivity).
  change (fst (touch Mock.mock_env Mock.fresh_bucket (JStr "note") JUndefined []))
    with [StoreGet (JStr "note")] in Hfst.
  injection Hfst as <-. discriminate Hev.
Qed.

(** What the subscriber does with the local state the resolver came up
    with: a truthy state is the answer, otherwise the store is read. *)
Lemma useLocalState_store E b id localState h object :
  truthy localState = false ->
  storeAPI_get E id h = (h ++ [StoreGet id], Fulfilled object) ->
  useLocalState E b id localState h
  = (h ++ [StoreGet id], Fulfilled (data_of object)).
Proof.
  intros Hfalsy Hget. unfold useLocalState, localStateForKey, get, data_of.
  rewrite Hfalsy. simpl deprecateCallback.
  erewrite then1_fulfilled by exact Hget.
  destruct (truthy object) eqn:Hobj; [|reflexivity].
  by destruct (get_prop_truthy object "data" Hobj) as [d ->].
Qed.

(** C8, as the code has it. With a resolver installed through
    [beforeNetworkChange], the subscriber the channel calls before a network
    change first calls the resolver with the id and the change; a truthy
    value the resolver returns (or its promise is fulfilled with) is the
    local state; for any falsy value, [null] being one of them, the store
    is read and the data of its object is the local state. *)
Theorem resolver_state_else_store E b resolver id args h localState :
  let b' := beforeNetworkChange b resolver in
  let h1 := h ++ [Call resolver (id :: args)] in
  is_function resolver = true ->
  invoke E h1 = Returns localState
  \/ invoke E h1 = ReturnsPromise (Fulfilled localState) ->
  (truthy localState = true ->
   networkChangeSubscriber E b' id args h = (h1, Promise (Fulfilled localState)))
  /\ (truthy localState = false ->
      forall object,
        storeAPI_get E id h1 = (h1 ++ [StoreGet id], Fulfilled object) ->
        networkChangeSubscriber E b' id args h
        = (h1 ++ [StoreGet id], Promise (Fulfilled (data_of object)))).
Proof.
  intros b' h1 Hfun Hret.
  destruct resolver; try discriminate Hfun.
  unfold networkChangeSubscriber. simpl. fold h1.
  split.
  - intros Htruthy.
    destruct Hret as [-> | ->]; unfold then1, then2, resolve, outside_promise,
      useLocalState; rewrite Htruthy; reflexivity.
  - intros Hfalsy object Hget.
    pose proof (useLocalState_store E b' id localState h1 object Hfalsy Hget) as Huse.
    destruct Hret as [-> | ->]; unfold then1, then2, resolve, outside_promise;
      fold b'; rewrite Huse; reflexivity.
Qed.

Lemma resolver_state_else_store_witness :
  networkChangeSubscriber
    (Mock.resolver_env (JObj {[ "content"%string := JStr "draft" ]}))
    (beforeNetworkChange Mock.fresh_bucket (JFun "resolver"))
    (JStr "note") [] []
  = ([Call (JFun "resolver") [JStr "note"]],
     Promise (Fulfilled (JObj {[ "content"%string := JStr "draft" ]}))).
Proof.
  refine (proj1 (resolver_state_else_store
                   (Mock.resolver_env (JObj {[ "content"%string := JStr "draft" ]}))
                   Mock.fresh_bucket (JFun "resolver") (JStr "note") [] []
                   (JObj {[ "content"%string := JStr "draft" ]}) _ _) _).
  - reflexivity.
  - left. reflexivity.
  - reflexivity.
Defined.

(** C8, the claim as written fails: a resolver that returns [undefined],
    which is not [null], sends the subscriber to the store all the same. *)
Lemma store_used_though_resolver_not_null :
  invoke (Mock.resolver_env JUndefined)
    [StoreUpdate (JStr "note") Mock.note (JBool false);
     Call (JFun "resolver") [JStr "note"]]
  = Returns JUndefined
  /\ JUndefined <> JNull
  /\ networkChangeSubscriber (Mock.resolver_env JUndefined)
       (beforeNetworkChange Mock.fresh_bucket (JFun "resolver"))
       (JStr "note") []
       [StoreUpdate (JStr "note") Mock.note (JBool false)]
     = ([StoreUpdate (JStr "note") Mock.note (JBool false);
         Call (JFun "resolver") [JStr "note"];
         StoreGet (JStr "note")],
        Promise (Fulfilled Mock.note)).
Proof. split; [reflexivity|]. split; [discriminate | reflexivity]. Qed.

End BucketFacts.
(* ===================================================================== *)
(** ** More about parse_message.js *)
(* ===================================================================== *)

Module ParseMessageMore.
Import JSString JSStringFacts ParseMessage.

Lemma occurs_false_indexOf c s : occurs c s = false -> indexOf c s = -1.
Proof.
  intros Hno. pose proof (indexOf_lower c s) as Hlow.
  destruct (Z_lt_le_dec (indexOf c s) 0) as [|Hge]; [lia|].
  apply indexOf_occurs in Hge. congruence.
Qed.

(** The index of the first [c] in [pre ++ c :: post], [pre] having none. *)
Lemma indexOf_append c pre post :
  occurs c pre = false ->
  indexOf c (String.append pre (String c post)) = len pre.
Proof.
  unfold len. induction pre as [|a pre IH]; simpl.
  - intros _. by rewrite Ascii.eqb_refl.
  - intros Hno. apply orb_false_iff in Hno as [Ha Hpre]. rewrite Ha.
    rewrite (IH Hpre).
    destruct (Z.of_nat (String.length pre) <? 0) eqn:Hneg; [lia|lia].
Qed.

Lemma substring_prefix pre rest :
  String.substring 0 (String.length pre) (String.append pre rest) = pre.
Proof. induction pre as [|a pre IH]; simpl; [apply substring_zero_length | by rewrite IH]. Qed.

Lemma substring_suffix pre c post :
  String.substring (S (String.length pre)) (String.length post)
    (String.append pre (String c post)) = post.
Proof. induction pre as [|a pre IH]; simpl; [apply substring_whole | exact IH]. Qed.

Lemma length_append s t :
  String.length (String.append s t) = (String.length s + String.length t)%nat.
Proof. induction s as [|a s IH]; simpl; [reflexivity | by rewrite IH]. Qed.

(** A frame built from a command without colon, a colon and any data is
    parsed back into that command and that data: further colons stay in the
    data. *)
Theorem parse_message_of_frame (cmd body : string) :
  occurs ":"%char cmd = false ->
  parse_message (String.append cmd (String ":"%char body))
  = {| command := cmd; data := body |}.
Proof.
  intros Hno. unfold parse_message, slice, clamp.
  rewrite (indexOf_append _ _ _ Hno). unfold len.
  rewrite length_append. simpl String.length.
  set (n := String.length cmd). set (m := String.length body).
  assert (Hn : (Z.of_nat n <? 0) = false) by (apply Z.ltb_ge; lia).
  assert (Hn1 : (Z.of_nat n + 1 <? 0) = false) by (apply Z.ltb_ge; lia).
  rewrite Hn, Hn1. change (0 <? 0) with false. cbv iota.
  replace (Z.to_nat (Z.min 0 (Z.of_nat (n + S m)))) with 0%nat by lia.
  replace (Z.to_nat (Z.max (Z.min (Z.of_nat n) (Z.of_nat (n + S m))
                            - Z.min 0 (Z.of_nat (n + S m))) 0))
    with n by lia.
  replace (Z.to_nat (Z.min (Z.of_nat n + 1) (Z.of_nat (n + S m))))
    with (S n) by lia.
  replace (Z.to_nat (Z.max (Z.of_nat (n + S m)
                            - Z.min (Z.of_nat n + 1) (Z.of_nat (n + S m))) 0))
    with m by lia.
  subst n m. by rewrite substring_prefix, substring_suffix.
Qed.

Lemma parse_message_of_frame_witness :
  parse_message (String.append "c" (String ":"%char "{:1}"))
  = {| command := "c"; data := "{:1}" |}.
Proof. apply parse_message_of_frame. reflexivity. Defined.

(** A frame without colon is not refused: [indexOf] gives [-1], so the
    command is the frame without its last character and the data is the
    whole frame. *)
Theorem parse_message_without_colon (frame : string) :
  occurs ":"%char frame = false ->
  parse_message frame
  = {| command := String.substring 0 (String.length frame - 1) frame;
       data := frame |}.
Proof.
  intros Hno. unfold parse_message, slice, clamp.
  rewrite (occurs_false_indexOf _ _ Hno). unfold len.
  change (-1 <? 0) with true. change (-1 + 1) with 0.
  change (0 <? 0) with false. cbv iota.
  set (n := String.length frame).
  replace (Z.to_nat (Z.min 0 (Z.of_nat n))) with 0%nat by lia.
  replace (Z.to_nat (Z.max (Z.max (Z.of_nat n + -1) 0 - Z.min 0 (Z.of_nat n)) 0))
    with (n - 1)%nat by lia.
  replace (Z.to_nat (Z.max (Z.of_nat n - Z.min 0 (Z.of_nat n)) 0))
    with n by lia.
  subst n. by rewrite substring_whole.
Qed.

Lemma parse_message_without_colon_witness :
  parse_message "log"
  = {| command := String.substring 0 (String.length "log" - 1) "log";
       data := "log" |}.
Proof. apply parse_message_without_colon. reflexivity. Defined.

End ParseMessageMore.

(* ===================================================================== *)
(** ** More about bucket.js *)
(* ===================================================================== *)

Module BucketMore.
Import JS JSFacts Bucket BucketContracts BucketHandlers BucketFacts.

(** *** The callback shim *)

(** With a function as callback, [deprecateCallback] calls it exactly once
    when the task settles, with [(null, result)] or with [(error)], and not
    at all while the task is pending. The promise it returns is rejected
    only with what the callback throws; otherwise it is fulfilled, with the
    result or with the error. *)
Theorem callback_called_once_when_settled E callback task h :
  is_function callback = true ->
  deprecateCallback E callback task h
  = match task h with
    | (h', Pending) => (h', Pending)
    | (h', Fulfilled result) =>
        let h'' := h' ++ [Call callback [JNull; result]] in
        (h'', match invoke E h'' with
              | Raises thrown => Rejected thrown
              | _ => Fulfilled result
              end)
    | (h', Rejected error) =>
        let h'' := h' ++ [Call callback [error]] in
        (h'', match invoke E h'' with
              | Raises thrown => Rejected thrown
              | _ => Fulfilled error
              end)
    end.
Proof.
  intros Hfun. unfold deprecateCallback. rewrite Hfun.
  unfold then2, then1, then2, call, plain_call, resolve, reject. cbv zeta.
  destruct (task h) as [h' [result|error|]]; [| |reflexivity].
  - by destruct (invoke E (h' ++ [Call callback [JNull; result]])).
  - by destruct (invoke E (h' ++ [Call callback [error]])).
Qed.

Lemma callback_called_once_when_settled_witness :
  get (Mock.failing_env (JError "store is down")) Mock.fresh_bucket
    (JStr "note") (JFun "callback") []
  = ([StoreGet (JStr "note"); Call (JFun "callback") [JError "store is down"]],
     Fulfilled (JError "store is down")).
Proof.
  exact (callback_called_once_when_settled
           (Mock.failing_env (JError "store is down")) (JFun "callback")
           (storeAPI_get (Mock.failing_env (JError "store is down"))
              (JStr "note")) [] eq_refl).
Defined.

(** *** [update] *)

Lemma then2_after p f g h :
  (forall v, grows (f v)) -> (forall e, grows (g e)) ->
  exists rest, fst (then2 p f g h) = fst (p h) ++ rest.
Proof.
  intros Hf Hg. unfold then2. destruct (p h) as [h' [v|e|]]; simpl.
  - apply Hf.
  - apply Hg.
  - exists []. by rewrite app_nil_r.
Qed.

Lemma then1_after p f h h' s :
  p h = (h', s) -> (forall v, grows (f v)) ->
  exists rest, fst (then1 p f h) = h' ++ rest.
Proof.
  intros Hp Hf.
  destruct (then2_after p f reject h Hf grows_reject) as [rest Hrest].
  exists rest. unfold then1. by rewrite Hrest, Hp.
Qed.

Lemma deprecateCallback_after E callback task h :
  exists rest, fst (deprecateCallback E callback task h) = fst (task h) ++ rest.
Proof.
  unfold deprecateCallback, call. destruct (is_function callback).
  - apply then2_after; intros; eauto using starts_with_grows with history.
  - exists []. by rewrite app_nil_r.
Qed.

(** What the promise of a successful [update] holds: the object the
    channel's [update] resolved with, which a callback gets as its second
    argument after [null]. *)
Theorem update_fulfils_with_channel_object E b id data remoteUpdateInfo options
    callback h bucketObject sent data' :
  let sync := sync_flag remoteUpdateInfo options callback in
  let callback' := snd (update_arguments remoteUpdateInfo options callback) in
  let h1 := h ++ [StoreUpdate id data (JBool (isIndexing b))] in
  let h2 := h1 ++ [ChannelUpdate bucketObject sync] in
  let h3 := h2 ++ [Emit "update" [id; data'; remoteUpdateInfo]] in
  storeAPI_update E id data (JBool (isIndexing b)) h = (h1, Fulfilled bucketObject) ->
  channel E h2 = Fulfilled sent ->
  get_prop sent "data" = Some data' ->
  returns_normally (invoke E h3) = true ->
  returns_normally (invoke E (h3 ++ [Call callback' [JNull; sent]])) = true ->
  update E b id data remoteUpdateInfo options callback h
  = (if is_function callback' then h3 ++ [Call callback' [JNull; sent]] else h3,
     Fulfilled sent).
Proof.
  intros sync callback' h1 h2 h3 Hstore Hchan Hdata Hemit Hcb.
  assert (Htask : update_task E b id data remoteUpdateInfo
                    (fst (update_arguments remoteUpdateInfo options callback)) h
                  = (h3, Fulfilled sent))
    by (erewrite update_task_trace; eauto using sync_flag_read).
  unfold update. subst callback'.
  destruct (update_arguments remoteUpdateInfo options callback)
    as [options' cb'] eqn:Hargs.
  simpl in *. unfold deprecateCallback.
  destruct (is_function cb') eqn:Hfun; [|exact Htask].
  erewrite then2_fulfilled by exact Htask.
  unfold call. erewrite then1_fulfilled; [reflexivity|].
  by apply plain_call_returns.
Qed.

Lemma update_fulfils_with_channel_object_witness :
  update Mock.mock_env Mock.fresh_bucket (JStr "note") Mock.note
    JUndefined JUndefined (JFun "saved") []
  = ([StoreUpdate (JStr "note") Mock.note (JBool false);
      ChannelUpdate
        (JObj {[ "id"%string := JStr "note"; "data"%string := Mock.note;
                 "isIndexing"%string := JBool false ]})
        (JBool true);
      Emit "update" [JStr "note"; Mock.note; JUndefined];
      Call (JFun "saved")
        [JNull;
         JObj {[ "id"%string := JStr "note"; "data"%string := Mock.note;
                 "isIndexing"%string := JBool false ]}]],
     Fulfilled
       (JObj {[ "id"%string := JStr "note"; "data"%string := Mock.note;
                "isIndexing"%string := JBool false ]})).
Proof.
  refine (update_fulfils_with_channel_object Mock.mock_env Mock.fresh_bucket
            (JStr "note") Mock.note JUndefined JUndefined (JFun "saved") []
            (JObj {[ "id"%string := JStr "note"; "data"%string := Mock.note;
                     "isIndexing"%string := JBool false ]})
            (JObj {[ "id"%string := JStr "note"; "data"%string := Mock.note;
                     "isIndexing"%string := JBool false ]})
            Mock.note _ _ _ _ _); vm_compute; reflexivity.
Defined.

(** [update] stops at the first failure and undoes nothing. When the write
    to the store fails, the channel is not called and no event goes out.
    When the channel's [update] fails, the write has happened, no [update]
    event goes out, and the promise is rejected with the channel's error. *)
Theorem update_stops_at_first_failure E b id data remoteUpdateInfo options callback
    h e :
  let sync := sync_flag remoteUpdateInfo options callback in
  let h1 := h ++ [StoreUpdate id data (JBool (isIndexing b))] in
  is_function (snd (update_arguments remoteUpdateInfo options callback)) = false ->
  (storeAPI_update E id data (JBool (isIndexing b)) h = (h1, Rejected e) ->
   update E b id data remoteUpdateInfo options callback h = (h1, Rejected e))
  /\ (forall bucketObject,
        storeAPI_update E id data (JBool (isIndexing b)) h
        = (h1, Fulfilled bucketObject) ->
        channel E (h1 ++ [ChannelUpdate bucketObject sync]) = Rejected e ->
        update E b id data remoteUpdateInfo options callback h
        = (h1 ++ [ChannelUpdate bucketObject sync], Rejected e)).
Proof.
  intros sync h1 Hcb.
  pose proof (sync_flag_read remoteUpdateInfo options callback) as Hsync.
  unfold update. fold sync in Hsync.
  destruct (update_arguments remoteUpdateInfo options callback)
    as [options' cb'] eqn:Hargs.
  simpl in *. unfold deprecateCallback. rewrite Hcb. split.
  - intros Hstore. by apply update_task_store_failure.
  - intros bucketObject Hstore Hchan. unfold update_task.
    erewrite then1_rejected; [reflexivity|].
    erewrite then1_fulfilled by exact Hstore.
    rewrite Hsync. unfold channel_call. cbv zeta. fold h1.
    by rewrite Hchan.
Qed.

Lemma update_stops_at_first_failure_witness :
  update (Mock.failing_env (JError "store is down")) Mock.fresh_bucket
    (JStr "note") Mock.note JUndefined JUndefined JUndefined []
  = ([StoreUpdate (JStr "note") Mock.note (JBool false)],
     Rejected (JError "store is down")).
Proof.
  refine (proj1 (update_stops_at_first_failure
                   (Mock.failing_env (JError "store is down"))
                   Mock.fresh_bucket (JStr "note") Mock.note
                   JUndefined JUndefined JUndefined []
                   (JError "store is down") _) _); reflexivity.
Defined.

(** The default of [options.sync] is not applied to options that are given
    without it: for options that are an object with no [sync] field (and no
    callback in the third place), the flag that reaches the channel is
    [undefined], not [true]. *)
Theorem update_options_without_sync E b id data remoteUpdateInfo fields callback
    h bucketObject :
  let h1 := h ++ [StoreUpdate id data (JBool (isIndexing b))] in
  is_function remoteUpdateInfo = false ->
  fields !! "sync"%string = None ->
  storeAPI_update E id data (JBool (isIndexing b)) h = (h1, Fulfilled bucketObject) ->
  exists rest,
    fst (update E b id data remoteUpdateInfo (JObj fields) callback h)
    = h1 ++ ChannelUpdate bucketObject JUndefined :: rest.
Proof.
  intros h1 Hri Hsync Hstore.
  unfold update, update_arguments. rewrite Hri. simpl.
  set (task := update_task E b id data remoteUpdateInfo (JObj fields)).
  assert (Htask : exists rest,
             fst (task h) = (h1 ++ [ChannelUpdate bucketObject JUndefined]) ++ rest).
  { unfold task, update_task, emit.
    eapply then1_after.
    - erewrite then1_fulfilled by exact Hstore. simpl. rewrite Hsync.
      reflexivity.
    - intros v. destruct (get_prop v "data");
        eauto 6 using starts_with_grows with history. }
  destruct Htask as [rest1 Htask].
  destruct (deprecateCallback_after E callback task h) as [rest2 Hall].
  rewrite Hall, Htask. exists (rest1 ++ rest2).
  by rewrite <- !app_assoc.
Qed.

Lemma update_options_without_sync_witness :
  exists rest,
    fst (update Mock.mock_env Mock.fresh_bucket (JStr "note") Mock.note
           JUndefined (JObj ∅) JUndefined [])
    = [StoreUpdate (JStr "note") Mock.note (JBool false)]
        ++ ChannelUpdate
             (JObj {[ "id"%string := JStr "note"; "data"%string := Mock.note;
                      "isIndexing"%string := JBool false ]})
             JUndefined :: rest.
Proof.
  refine (update_options_without_sync Mock.mock_env Mock.fresh_bucket
            (JStr "note") Mock.note JUndefined ∅ JUndefined []
            (JObj {[ "id"%string := JStr "note"; "data"%string := Mock.note;
                     "isIndexing"%string := JBool false ]}) _ _ _);
    vm_compute; reflexivity.
Defined.

(** Whatever the store, the channel, the listeners and the callback do,
    a call of [update] makes no other calls than these, each at most once
    and in this order: the write to the store, which always comes first,
    the channel's [update], the event [update], the callback. It never reads
    or removes from the store and asks nothing else of the channel. *)
Theorem update_makes_only_its_calls E b id data remoteUpdateInfo options callback h :
  exists bucketObject sync args results rest,
    fst (update E b id data remoteUpdateInfo options callback h)
    = h ++ StoreUpdate id data (JBool (isIndexing b)) :: rest
    /\ sublist rest
         [ChannelUpdate bucketObject sync;
          Emit "update" args;
          Call (snd (update_arguments remoteUpdateInfo options callback)) results].
Proof.
  unfold update.
  destruct (update_arguments remoteUpdateInfo options callback)
    as [options' cb'].
  cbn [snd].
  unfold deprecateCallback, update_task, storeAPI_update, callbackAsPromise,
    then1, then2, channel_call, emit, call, plain_call, resolve, reject.
  cbv zeta.
  repeat case_match; simplify_eq/=;
    do 4 eexists; eexists; (split; [rewrite <- ?app_assoc; reflexivity|]);
    eauto 8 using sublist_nil, sublist_skip, sublist_cons.
  Unshelve. all: first [exact JUndefined | exact []].
Qed.

(** *** [add] *)

(** [add( data, callback )] saves under the identifier [uuid()] draws and
    always syncs. Its callback is called with [null] and the object the
    channel resolved with, not with the identifier; and because the callback
    goes to [update] in the place of [remoteUpdateInfo], the [update] event
    carries the callback as its third argument. *)
Theorem add_saves_under_fresh_id E b data callback h bucketObject sent data' :
  let id := JStr (uuid E h) in
  let h1 := h ++ [StoreUpdate id data (JBool (isIndexing b))] in
  let h2 := h1 ++ [ChannelUpdate bucketObject (JBool true)] in
  let h3 := h2 ++ [Emit "update" [id; data'; callback]] in
  is_function callback = true ->
  storeAPI_update E id data (JBool (isIndexing b)) h = (h1, Fulfilled bucketObject) ->
  channel E h2 = Fulfilled sent ->
  get_prop sent "data" = Some data' ->
  returns_normally (invoke E h3) = true ->
  returns_normally (invoke E (h3 ++ [Call callback [JNull; sent]])) = true ->
  add E b data callback h
  = (h3 ++ [Call callback [JNull; sent]], Fulfilled sent).
Proof.
  intros id h1 h2 h3 Hfun Hstore Hchan Hdata Hemit Hcb.
  unfold add, update, update_arguments. fold id. rewrite Hfun. simpl.
  assert (Htask : update_task E b id data callback sync_true h
                  = (h3, Fulfilled sent))
    by (erewrite update_task_trace; eauto).
  unfold deprecateCallback. rewrite Hfun.
  erewrite then2_fulfilled by exact Htask.
  unfold call. erewrite then1_fulfilled; [reflexivity|].
  by apply plain_call_returns.
Qed.

Lemma add_saves_under_fresh_id_witness :
  add Mock.mock_env Mock.fresh_bucket Mock.note (JFun "done") []
  = ([StoreUpdate (JStr "00000000-0000-4000-8000-000000000000") Mock.note
        (JBool false);
      ChannelUpdate
        (JObj {[ "id"%string := JStr "00000000-0000-4000-8000-000000000000";
                 "data"%string := Mock.note;
                 "isIndexing"%string := JBool false ]})
        (JBool true);
      Emit "update"
        [JStr "00000000-0000-4000-8000-000000000000"; Mock.note; JFun "done"];
      Call (JFun "done")
        [JNull;
         JObj {[ "id"%string := JStr "00000000-0000-4000-8000-000000000000";
                 "data"%string := Mock.note;
                 "isIndexing"%string := JBool false ]}]],
     Fulfilled
       (JObj {[ "id"%string := JStr "00000000-0000-4000-8000-000000000000";
                "data"%string := Mock.note;
                "isIndexing"%string := JBool false ]})).
Proof.
  refine (add_saves_under_fresh_id Mock.mock_env Mock.fresh_bucket Mock.note
            (JFun "done") []
            (JObj {[ "id"%string := JStr "00000000-0000-4000-8000-000000000000";
                     "data"%string := Mock.note;
                     "isIndexing"%string := JBool false ]})
            (JObj {[ "id"%string := JStr "00000000-0000-4000-8000-000000000000";
                     "data"%string := Mock.note;
                     "isIndexing"%string := JBool false ]})
            Mock.note _ _ _ _ _ _); vm_compute; reflexivity.
Defined.

(** *** [remove] *)

(** A [remove] that goes through deletes from the store, then emits
    [remove] with the id, then tells the channel, and fulfils with what the
    store called back with. *)
Theorem remove_deletes_emits_tells E b id h result :
  let h1 := h ++ [StoreRemove id] in
  let h2 := h1 ++ [Emit "remove" [id]] in
  let h3 := h2 ++ [ChannelRemove id] in
  storeAPI_remove E id h = (h1, Fulfilled result) ->
  returns_normally (invoke E h2) = true ->
  returns_normally (invoke E h3) = true ->
  remove E b id JUndefined h = (h3, Fulfilled result).
Proof.
  intros h1 h2 h3 Hstore Hemit Htell.
  unfold remove, deprecateCallback, remove_task, emit. simpl.
  erewrite then1_fulfilled by exact Hstore.
  erewrite then1_fulfilled by (apply plain_call_returns; exact Hemit).
  erewrite then1_fulfilled by (apply plain_call_returns; exact Htell).
  reflexivity.
Qed.

Lemma remove_deletes_emits_tells_witness :
  remove Mock.mock_env Mock.fresh_bucket (JStr "note") JUndefined
    [StoreUpdate (JStr "note") Mock.note (JBool false)]
  = ([StoreUpdate (JStr "note") Mock.note (JBool false);
      StoreRemove (JStr "note"); Emit "remove" [JStr "note"];
      ChannelRemove (JStr "note")],
     Fulfilled JUndefined).
Proof.
  refine (remove_deletes_emits_tells Mock.mock_env Mock.fresh_bucket
            (JStr "note") [StoreUpdate (JStr "note") Mock.note (JBool false)]
            JUndefined _ _ _); vm_compute; reflexivity.
Defined.

(** [remove] stops at the first failure. When the store fails to delete,
    no event goes out and the channel is not told. When a listener of
    [remove] throws, the object is gone from the store and the channel is
    still not told. Either way the promise is rejected. *)
Theorem remove_stops_at_first_failure E b id h e :
  let h1 := h ++ [StoreRemove id] in
  let h2 := h1 ++ [Emit "remove" [id]] in
  (storeAPI_remove E id h = (h1, Rejected e) ->
   remove E b id JUndefined h = (h1, Rejected e))
  /\ (forall result,
        storeAPI_remove E id h = (h1, Fulfilled result) ->
        invoke E h2 = Raises e ->
        remove E b id JUndefined h = (h2, Rejected e)).
Proof.
  intros h1 h2. unfold remove, deprecateCallback, remove_task, emit. simpl.
  split.
  - intros Hstore. by erewrite then1_rejected.
  - intros result Hstore Hthrow.
    erewrite then1_fulfilled by exact Hstore.
    erewrite then1_rejected; [reflexivity|].
    by apply plain_call_throws.
Qed.

(** *** The network change subscriber of [setChannel] *)

(** With no resolver installed (the field is [undefined], or any falsy
    value was installed), nothing is called but the store: the local state
    is the data of the stored object, [undefined] when there is none, and a
    failure of the store is the failure of the subscriber. *)
Theorem subscriber_without_resolver E b id args h :
  let h1 := h ++ [StoreGet id] in
  truthy (changeResolver b) = false ->
  (forall object,
     storeAPI_get E id h = (h1, Fulfilled object) ->
     networkChangeSubscriber E b id args h
     = (h1, Promise (Fulfilled (data_of object))))
  /\ (forall e,
        storeAPI_get E id h = (h1, Rejected e) ->
        networkChangeSubscriber E b id args h = (h1, Promise (Rejected e))).
Proof.
  intros h1 Hnone. unfold networkChangeSubscriber. rewrite Hnone.
  rewrite (then1_fulfilled (resolve JNull) _ h h JNull eq_refl).
  split.
  - intros object Hget.
    by rewrite (useLocalState_store E b id JNull h object eq_refl Hget).
  - intros e Hget. unfold useLocalState, localStateForKey, get.
    cbn [truthy deprecateCallback is_function].
    by erewrite then1_rejected by exact Hget.
Qed.

Lemma subscriber_without_resolver_witness :
  networkChangeSubscriber Mock.mock_env Mock.fresh_bucket (JStr "note") []
    [StoreUpdate (JStr "note") Mock.note (JBool false)]
  = ([StoreUpdate (JStr "note") Mock.note (JBool false); StoreGet (JStr "note")],
     Promise (Fulfilled Mock.note)).
Proof.
  refine (proj1 (subscriber_without_resolver Mock.mock_env Mock.fresh_bucket
                   (JStr "note") []
                   [StoreUpdate (JStr "note") Mock.note (JBool false)] _)
            (JObj {[ "id"%string := JStr "note"; "data"%string := Mock.note;
                     "isIndexing"%string := JBool false ]}) _);
    vm_compute; reflexivity.
Defined.

(** A resolver that fails keeps the subscriber away from the store. When
    the resolver throws, the subscriber throws the same to the channel and
    returns no promise; when the promise of the resolver is rejected, so is
    the promise of the subscriber; when it stays pending, so does the
    subscriber. In no case is the store read. *)
Theorem subscriber_resolver_failure E b resolver id args h :
  let b' := beforeNetworkChange b resolver in
  let h1 := h ++ [Call resolver (id :: args)] in
  is_function resolver = true ->
  (forall e, invoke E h1 = Raises e ->
             networkChangeSubscriber E b' id args h = (h1, Throws e))
  /\ (forall e, invoke E h1 = ReturnsPromise (Rejected e) ->
                networkChangeSubscriber E b' id args h
                = (h1, Promise (Rejected e)))
  /\ (invoke E h1 = ReturnsPromise Pending ->
      networkChangeSubscriber E b' id args h = (h1, Promise Pending)).
Proof.
  intros b' h1 Hfun. destruct resolver; try discriminate Hfun.
  unfold networkChangeSubscriber. simpl. fold h1.
  repeat split; intros; by rewrite H.
Qed.

Lemma subscriber_resolver_failure_witness :
  networkChangeSubscriber
    {| store := Mock.memory_store; channel := Mock.mock_channel;
       invoke := fun _ => Raises (JError "resolver broke");
       uuid := fun _ => "id"%string |}
    (beforeNetworkChange Mock.fresh_bucket (JFun "resolver")) (JStr "note") [] []
  = ([Call (JFun "resolver") [JStr "note"]], Throws (JError "resolver broke")).
Proof.
  refine (proj1 (subscriber_resolver_failure
                   {| store := Mock.memory_store; channel := Mock.mock_channel;
                      invoke := fun _ => Raises (JError "resolver broke");
                      uuid := fun _ => "id"%string |}
                   Mock.fresh_bucket (JFun "resolver") (JStr "note") [] [] _)
            (JError "resolver broke") _); reflexivity.
Defined.

(** *** The listeners the constructor makes *)

(** A change that comes from the channel is saved without being sent back:
    [onChannelUpdate] writes the data to the store, calls the channel's
    [update] with the sync flag [false], and emits [update] with
    [{ original, patch, isIndexing }] as the remote information. *)
Theorem onChannelUpdate_does_not_sync E b id data original patch indexing h
    bucketObject sent data' :
  let info := remote_info original patch indexing in
  let h1 := h ++ [StoreUpdate id data (JBool (isIndexing b))] in
  let h2 := h1 ++ [ChannelUpdate bucketObject (JBool false)] in
  let h3 := h2 ++ [Emit "update" [id; data'; info]] in
  storeAPI_update E id data (JBool (isIndexing b)) h = (h1, Fulfilled bucketObject) ->
  channel E h2 = Fulfilled sent ->
  get_prop sent "data" = Some data' ->
  returns_normally (invoke E h3) = true ->
  onChannelUpdate E b id data original patch indexing h = (h3, Fulfilled sent).
Proof.
  intros info h1 h2 h3 Hstore Hchan Hdata Hemit.
  unfold onChannelUpdate, update, update_arguments. fold info. simpl.
  unfold deprecateCallback. simpl.
  erewrite update_task_trace; eauto.
Qed.

Lemma onChannelUpdate_does_not_sync_witness :
  onChannelUpdate Mock.mock_env Mock.fresh_bucket (JStr "note") Mock.note
    JNull JNull (JBool false) []
  = ([StoreUpdate (JStr "note") Mock.note (JBool false);
      ChannelUpdate
        (JObj {[ "id"%string := JStr "note"; "data"%string := Mock.note;
                 "isIndexing"%string := JBool false ]})
        (JBool false);
      Emit "update"
        [JStr "note"; Mock.note; remote_info JNull JNull (JBool false)]],
     Fulfilled
       (JObj {[ "id"%string := JStr "note"; "data"%string := Mock.note;
                "isIndexing"%string := JBool false ]})).
Proof.
  refine (onChannelUpdate_does_not_sync Mock.mock_env Mock.fresh_bucket
            (JStr "note") Mock.note JNull JNull (JBool false) []
            (JObj {[ "id"%string := JStr "note"; "data"%string := Mock.note;
                     "isIndexing"%string := JBool false ]})
            (JObj {[ "id"%string := JStr "note"; "data"%string := Mock.note;
                     "isIndexing"%string := JBool false ]})
            Mock.note _ _ _ _); vm_compute; reflexivity.
Defined.

(** [onChannelIndexingStateChange] keeps the flag of the bucket in step
    with the channel and leaves the resolver alone; [indexing] is emitted
    when indexing starts and nothing is emitted when it ends; and every
    [update] from then on writes to the store with the new flag. *)
Theorem indexing_flag_follows_channel E b flag h id data remoteUpdateInfo
    options callback :
  let after := onChannelIndexingStateChange E b flag h in
  isIndexing after.1 = flag
  /\ changeResolver after.1 = changeResolver b
  /\ after.2.1 = h ++ (if flag then [Emit "indexing" []] else [])
  /\ starts_with (StoreUpdate id data (JBool flag))
       (update E after.1 id data remoteUpdateInfo options callback).
Proof.
  unfold onChannelIndexingStateChange, emit_now. cbv zeta.
  destruct flag; simpl; repeat split; try (by rewrite app_nil_r);
    apply (starts_with_update E
             {| isIndexing := _; changeResolver := changeResolver b |}).
Qed.

(** *** Over [MockChannel] *)

(** A bucket on a [MockChannel]: a successful [update] emits the data of
    the object the store handed back and fulfils with that object, since the
    mock's [update] resolves with the object it is given; and [getVersion]
    resolves with [0] for every id. *)
Theorem bucket_over_mock_channel E b id data remoteUpdateInfo options callback h
    bucketObject data' :
  let sync := sync_flag remoteUpdateInfo options callback in
  let h1 := h ++ [StoreUpdate id data (JBool (isIndexing b))] in
  let h2 := h1 ++ [ChannelUpdate bucketObject sync] in
  let h3 := h2 ++ [Emit "update" [id; data'; remoteUpdateInfo]] in
  channel E = Mock.mock_channel ->
  is_function (snd (update_arguments remoteUpdateInfo options callback)) = false ->
  storeAPI_update E id data (JBool (isIndexing b)) h = (h1, Fulfilled bucketObject) ->
  get_prop bucketObject "data" = Some data' ->
  returns_normally (invoke E h3) = true ->
  update E b id data remoteUpdateInfo options callback h
  = (h3, Fulfilled bucketObject)
  /\ (forall id',
        getVersion E b id' JUndefined h
        = (h ++ [ChannelGetVersion id'], Fulfilled (JNum 0))).
Proof.
  intros sync h1 h2 h3 Hmock Hcb Hstore Hdata Hemit. split.
  - assert (Hchan : channel E h2 = Fulfilled bucketObject).
    { rewrite Hmock. unfold Mock.mock_channel, h2. by rewrite last_snoc. }
    pose proof (sync_flag_read remoteUpdateInfo options callback) as Hsync.
    unfold update.
    destruct (update_arguments remoteUpdateInfo options callback)
      as [options' cb'].
    simpl in *. unfold deprecateCallback. rewrite Hcb.
    erewrite update_task_trace; eauto.
  - intros id'. unfold getVersion, deprecateCallback, channel_call. simpl.
    rewrite Hmock. unfold Mock.mock_channel. by rewrite last_snoc.
Qed.

Lemma bucket_over_mock_channel_witness :
  update Mock.mock_env Mock.fresh_bucket (JStr "note") Mock.note
    JUndefined JUndefined JUndefined []
  = ([StoreUpdate (JStr "note") Mock.note (JBool false);
      ChannelUpdate
        (JObj {[ "id"%string := JStr "note"; "data"%string := Mock.note;
                 "isIndexing"%string := JBool false ]})
        (JBool true);
      Emit "update" [JStr "note"; Mock.note; JUndefined]],
     Fulfilled
       (JObj {[ "id"%string := JStr "note"; "data"%string := Mock.note;
                "isIndexing"%string := JBool false ]})).
Proof.
  refine (proj1 (bucket_over_mock_channel Mock.mock_env Mock.fresh_bucket
                   (JStr "note") Mock.note JUndefined JUndefined JUndefined []
                   (JObj {[ "id"%string := JStr "note";
                            "data"%string := Mock.note;
                            "isIndexing"%string := JBool false ]})
                   Mock.note _ _ _ _ _)); vm_compute; reflexivity.
Defined.

End BucketMore.
(* ===================================================================== *)
(** ** Facts about [setChannel] *)
(* ===================================================================== *)

Module WiringFacts.
Import Wiring.

Set Warnings "-clear-no-such-hyp".

Local Open Scope nat_scope.

Lemma registered_nil name f : registered name f [] = 0.
Proof. reflexivity. Qed.

Lemma registered_cons name f r regs :
  registered name f (r :: regs)
  = (if decide (r = (name, f)) then 1 else 0) + registered name f regs.
Proof.
  unfold registered. rewrite filter_cons.
  destruct (decide (r = (name, f))); reflexivity.
Qed.

Lemma registered_app name f regs regs' :
  registered name f (regs ++ regs')
  = registered name f regs + registered name f regs'.
Proof. unfold registered. by rewrite filter_app, length_app. Qed.

Lemma registered_absent name f regs :
  (name, f) ∉ regs -> registered name f regs = 0.
Proof.
  induction regs as [|r regs IH]; [reflexivity|].
  rewrite not_elem_of_cons, registered_cons. intros [Hne Hnot].
  rewrite decide_False by congruence. by rewrite IH.
Qed.

Lemma registered_on name f name' f' regs :
  registered name f (on name' f' regs)
  = registered name f regs
    + (if decide ((name', f') = (name, f)) then 1 else 0).
Proof.
  unfold on. rewrite registered_app, registered_cons, registered_nil. lia.
Qed.

(** [removeListener] takes one registration of its listener away, if there
    is one, and no registration of any other. *)
Lemma registered_removeListener name f name' f' regs :
  registered name f (removeListener name' f' regs)
  = registered name f regs
    - (if decide ((name', f') = (name, f)) then 1 else 0).
Proof.
  induction regs as [|r regs IH]; simpl.
  - rewrite registered_nil. lia.
  - destruct (decide ((name', f') ∈ regs)) as [Hin|Hnot].
    + rewrite !registered_cons, IH.
      destruct (decide ((name', f') = (name, f))) as [Heq|]; [|lia].
      simplify_eq.
      assert (0 < registered name f regs); [|lia].
      clear IH.
      induction regs as [|r' regs IH']; [by apply elem_of_nil in Hin|].
      rewrite registered_cons.
      apply elem_of_cons in Hin as [<-|Hin]; [rewrite decide_True by done; lia|].
      specialize (IH' Hin). lia.
    + destruct (decide (r = (name', f'))) as [->|Hne].
      * rewrite registered_cons.
        destruct (decide ((name', f') = (name, f))); lia.
      * rewrite registered_cons.
        destruct (decide ((name', f') = (name, f))) as [Heq|]; [|lia].
        simplify_eq. rewrite decide_False by done.
        rewrite (registered_absent _ _ _ Hnot). lia.
Qed.

Lemma registered_subscribe name f regs rs :
  registered name f (foldl (fun regs r => on r.1 r.2 regs) regs rs)
  = registered name f regs + registered name f rs.
Proof.
  revert regs. induction rs as [|[name' f'] rs IH]; intros regs; simpl.
  - rewrite registered_nil. lia.
  - rewrite IH, registered_on, registered_cons. lia.
Qed.

Lemma registered_unsubscribe name f regs rs :
  registered name f (foldl (fun regs r => removeListener r.1 r.2 regs) regs rs)
  = registered name f regs - registered name f rs.
Proof.
  revert regs. induction rs as [|[name' f'] rs IH]; intros regs; simpl.
  - rewrite registered_nil. lia.
  - rewrite IH, registered_removeListener, registered_cons. lia.
Qed.

Lemma registered_NoDup name f regs :
  NoDup regs ->
  registered name f regs = if decide ((name, f) ∈ regs) then 1 else 0.
Proof.
  induction 1 as [|r regs Hnot _ IH]; [reflexivity|].
  rewrite registered_cons, IH.
  destruct (decide (r = (name, f))) as [->|Hne].
  - rewrite decide_False by done. rewrite decide_True by (apply elem_of_cons; by left).
    reflexivity.
  - destruct (decide ((name, f) ∈ regs)) as [Hin|Hout].
    + by rewrite decide_True by (apply elem_of_cons; by right).
    + rewrite decide_False; [reflexivity|].
      rewrite not_elem_of_cons. split; congruence.
Qed.

(** Each of the five registrations of a bucket occurs once in the list. *)
Lemma registered_bucket_listeners b name f :
  registered name (BucketListener b f) (bucket_listeners b)
  = if decide ((name, BucketListener b f) ∈ bucket_listeners b) then 1 else 0.
Proof.
  apply registered_NoDup. unfold bucket_listeners.
  repeat (apply NoDup_cons; split;
          [repeat (rewrite not_elem_of_cons; split; [discriminate|]);
           apply not_elem_of_nil|]).
  apply NoDup_nil_2.
Qed.

(** The registrations of others are not touched. *)
Lemma of_others_on b name f regs :
  is_of_bucket b f = true -> of_others b (on name f regs) = of_others b regs.
Proof.
  intros Hb. unfold of_others, on. rewrite filter_app, filter_cons. simpl.
  rewrite decide_False by congruence. by rewrite filter_nil, app_nil_r.
Qed.

Lemma of_others_removeListener b name f regs :
  is_of_bucket b f = true ->
  of_others b (removeListener name f regs) = of_others b regs.
Proof.
  intros Hb. unfold of_others. induction regs as [|r regs IH]; [reflexivity|].
  simpl. destruct (decide ((name, f) ∈ regs)).
  - rewrite !filter_cons, IH. reflexivity.
  - destruct (decide (r = (name, f))) as [->|]; [|reflexivity].
    rewrite filter_cons. simpl. by rewrite decide_False by congruence.
Qed.

Lemma of_others_subscribe b s :
  of_others b (listeners (subscribe b s)) = of_others b (listeners s).
Proof.
  unfold subscribe, bucket_listeners. simpl.
  rewrite !of_others_on; try reflexivity; simpl; by rewrite bool_decide_true.
Qed.

Lemma of_others_unsubscribe b s :
  of_others b (listeners (unsubscribe b s)) = of_others b (listeners s).
Proof.
  unfold unsubscribe, bucket_listeners. simpl.
  rewrite !of_others_removeListener; try reflexivity; simpl;
    by rewrite bool_decide_true.
Qed.

Lemma unwired_wired b w : unwired b w -> wired b None w.
Proof.
  intros Hun c name f. rewrite Hun, decide_False; [reflexivity|].
  by intros [? _].
Qed.

(** One call of [setChannel] moves the listeners. *)
Lemma setChannel_wired b current channel w :
  wired b current w -> wired b (Some channel) (setChannel b current channel w).2.
Proof.
  intros Hw c name f. unfold setChannel. cbn [snd].
  pose proof (registered_bucket_listeners b name f) as Hfive.
  assert (Hold : forall old c',
             registered name (BucketListener b f)
               (listeners
                  (set_channel_state old (unsubscribe b (w old)) w c'))
             = registered name (BucketListener b f) (listeners (w c'))
               - (if decide (c' = old)
                  then registered name (BucketListener b f) (bucket_listeners b)
                  else 0)).
  { intros old c'. unfold set_channel_state.
    destruct (decide (c' = old)) as [->|]; [|lia].
    unfold unsubscribe. cbn [listeners]. apply registered_unsubscribe. }
  unfold set_channel_state at 1.
  destruct (decide (c = channel)) as [->|Hother].
  - unfold subscribe. cbn [listeners]. rewrite registered_subscribe, Hfive.
    destruct current as [old|].
    + rewrite Hold, Hw, Hfive.
      repeat case_decide; simplify_eq; try lia; naive_solver.
    + rewrite Hw. repeat case_decide; simplify_eq; try lia; naive_solver.
  - destruct current as [old|].
    + rewrite Hold, Hw, Hfive.
      repeat case_decide; simplify_eq; try lia; naive_solver.
    + rewrite Hw. repeat case_decide; simplify_eq; try lia; naive_solver.
Qed.

Lemma setChannel_of_others b current channel w c :
  of_others b (listeners ((setChannel b current channel w).2 c))
  = of_others b (listeners (w c)).
Proof.
  unfold setChannel. cbn [snd]. unfold set_channel_state.
  destruct current as [old|];
    repeat case_decide; simplify_eq;
    rewrite ?of_others_subscribe, ?of_others_unsubscribe; reflexivity.
Qed.

Lemma setChannels_snoc b calls c start :
  setChannels b (calls ++ [c]) start
  = setChannel b (setChannels b calls start).1 c (setChannels b calls start).2.
Proof. unfold setChannels. by rewrite foldl_app. Qed.

Lemma setChannels_current b calls start :
  (setChannels b calls start).1
  = match last calls with Some c => Some c | None => start.1 end.
Proof.
  induction calls as [|c calls _] using rev_ind; [reflexivity|].
  by rewrite setChannels_snoc, last_snoc.
Qed.

(** After any run of [setChannel] calls on a bucket that was wired to
    nothing, the five listeners of the bucket are registered exactly once
    each on the channel of the last call and nowhere else, also when a
    channel is set twice or set again later; the field [channel] is that
    channel; and the registrations of others are as they were, in their
    order. *)
Theorem setChannel_keeps_listeners_single b w calls :
  unwired b w ->
  (setChannels b calls (None, w)).1 = last calls
  /\ wired b (last calls) (setChannels b calls (None, w)).2
  /\ (forall c,
        of_others b (listeners ((setChannels b calls (None, w)).2 c))
        = of_others b (listeners (w c))).
Proof.
  intros Hun. split; [|split].
  - rewrite setChannels_current. by destruct (last calls).
  - induction calls as [|c calls IH] using rev_ind.
    + by apply unwired_wired.
    + rewrite setChannels_snoc, last_snoc. apply setChannel_wired.
      rewrite setChannels_current. destruct (last calls); exact IH.
  - intros c. induction calls as [|c' calls IH] using rev_ind; [reflexivity|].
    by rewrite setChannels_snoc, setChannel_of_others.
Qed.

Lemma setChannel_keeps_listeners_single_witness :
  (setChannels 7 [1; 2; 2; 1] (None, fun _ => {| listeners := [("update"%string, OtherListener "logger")]; network_subscriber := None |})).1
  = Some 1
  /\ wired 7 (Some 1)
       (setChannels 7 [1; 2; 2; 1] (None, fun _ => {| listeners := [("update"%string, OtherListener "logger")]; network_subscriber := None |})).2
  /\ (forall c,
        of_others 7
          (listeners ((setChannels 7 [1; 2; 2; 1] (None, fun _ => {| listeners := [("update"%string, OtherListener "logger")]; network_subscriber := None |})).2 c))
        = of_others 7 [("update"%string, OtherListener "logger")]).
Proof.
  apply (setChannel_keeps_listeners_single 7
           (fun _ => {| listeners := [("update"%string, OtherListener "logger")];
                        network_subscriber := None |})
           [1; 2; 2; 1]).
  intros c name f. cbn [listeners].
  rewrite registered_cons, decide_False by discriminate. reflexivity.
Defined.

(** [setChannel] installs the network change subscriber of the bucket on
    the channel it is given and never takes it off a channel it leaves:
    every channel of a run of calls holds the subscriber of the bucket at
    the end. *)
Theorem setChannel_never_detaches_subscriber b calls start c :
  c ∈ calls ->
  network_subscriber ((setChannels b calls start).2 c) = Some b.
Proof.
  induction calls as [|c' calls IH] using rev_ind;
    [intros Hin; by apply elem_of_nil in Hin|].
  rewrite elem_of_app, list_elem_of_singleton, setChannels_snoc.
  intros Hin. unfold setChannel. cbn [snd]. unfold set_channel_state at 1.
  destruct (decide (c = c')) as [->|Hne]; [reflexivity|].
  destruct Hin as [Hin|]; [|done]. specialize (IH Hin).
  destruct ((setChannels b calls start).1) as [old|]; [|exact IH].
  unfold set_channel_state. destruct (decide (c = old)) as [->|]; exact IH.
Qed.

Lemma setChannel_never_detaches_subscriber_witness :
  network_subscriber
    ((setChannels 7 [1; 2]
        (None, fun _ => {| listeners := []; network_subscriber := None |})).2 1)
  = Some 7.
Proof.
  apply setChannel_never_detaches_subscriber.
  apply elem_of_cons. by left.
Defined.

End WiringFacts.

(* ===================================================================== *)
(** ** Facts about the sample's interrupt handler *)
(* ===================================================================== *)

Module SampleFacts.
Import Sample.

Lemma interrupted_spaced clocks s :
  (lastInt s = None -> interval s = None) ->
  is_Some (interrupted clocks s) <-> spaced (lastInt s) clocks.
Proof.
  revert s. induction clocks as [|[clock1 clock2] clocks IH]; intros s Hinf.
  - simpl. split; eauto.
  - simpl. unfold on_sigint.
    destruct (lastInt s) as [last|] eqn:Hlast.
    + simpl. destruct (clock1 - last <? 500) eqn:Hgap; simpl.
      * apply Z.ltb_lt in Hgap. split; [intros [? [=]] | intros [? _]; lia].
      * apply Z.ltb_ge in Hgap. rewrite IH by (simpl; discriminate).
        simpl. tauto.
    + rewrite (Hinf eq_refl). simpl.
      rewrite IH by (simpl; discriminate). simpl. tauto.
Qed.

(** The sample keeps running through a series of interrupts exactly when
    each of them comes at least 500 ms after the one before: the first
    interrupt never shuts the process down, and a later one does as soon as
    less than 500 ms lie between the clock reading that ended the previous
    interrupt and its own. *)
Theorem sample_exits_on_quick_second_interrupt (clocks : list (Z * Z)) :
  is_Some (interrupted clocks start)
  <-> forall k a b,
        clocks !! k = Some a -> clocks !! S k = Some b -> 500 <= b.1 - a.2.
Proof.
  rewrite interrupted_spaced by reflexivity. simpl lastInt.
  assert (Hgen : forall last clocks,
             spaced last clocks
             <-> (forall b, clocks !! 0%nat = Some b ->
                            match last with
                            | Some t => 500 <= b.1 - t
                            | None => True
                            end)
                 /\ (forall k a b, clocks !! k = Some a ->
                                   clocks !! S k = Some b -> 500 <= b.1 - a.2)).
  { clear clocks. intros last clocks. revert last.
    induction clocks as [|[c1 c2] clocks IH]; intros last; simpl.
    - split; [intros _; split; intros; discriminate | done].
    - rewrite IH. split.
      + intros (Hfirst & Hnext & Hrest). split.
        * intros b [= <-]. exact Hfirst.
        * intros [|k] a b Ha Hb; simpl in *.
          -- injection Ha as <-. by apply (Hnext b).
          -- by apply (Hrest k a b).
      + intros [Hfirst Hall]. split; [|split].
        * by apply (Hfirst (c1, c2)).
        * intros b Hb. by apply (Hall 0%nat (c1, c2) b).
        * intros k a b Ha Hb. by apply (Hall (S k) a b). }
  rewrite Hgen. split; [tauto|]. intros Hall. split; [done | exact Hall].
Qed.

End SampleFacts.

